(** * toc-extractor: a shallow embedding of the extraction pipeline

    The repository has two programs that share most of their logic:
    [cli_runner.py] (headless command line runner, with retries) and
    [toc_playwright.py] (Tk front end).  Both are embedded here, each in a
    module named after its file, on top of a small model of the Python
    features they rely on: [str] as a list of code points, the fragment of
    [re] the patterns of the source are written in, and the parts of
    [urllib.parse] that [urlparse] and [urljoin] go through. *)

From Stdlib Require Import QArith Qminmax Qround Lqa String Ascii DecimalString.
From Stdlib Require Import Floats.SpecFloat.
From Stdlib Require DecimalN.
From stdpp Require Import base list gmap.

Local Open Scope N_scope.

(** ** Python [str] *)

(** A Python string is a sequence of Unicode code points. *)
Abbreviation pystr := (list N).

(** [py "abc"] is the Python literal ["abc"] (ASCII literals only). *)
Definition py (s : string) : pystr :=
  List.map N_of_ascii (list_ascii_of_string s).

(** Membership of a code point in a literal set of characters. *)
Definition one_of (cs : pystr) (c : N) : bool := existsb (N.eqb c) cs.

(** [str.isspace] on one code point; [re]'s [\s] is the same class for
    [str] patterns. *)
Definition isspace (c : N) : bool :=
  ((9 <=? c) && (c <=? 13)) || ((28 <=? c) && (c <=? 32))
  || one_of [133; 160; 5760] c
  || ((8192 <=? c) && (c <=? 8202))
  || one_of [8232; 8233; 8239; 8287; 12288] c.

(** [s.lstrip(chars)] and [s.rstrip(chars)], for the class [p] of the
    characters to remove. *)
Fixpoint lstrip_by (p : N -> bool) (s : pystr) : pystr :=
  match s with
  | c :: s' => if p c then lstrip_by p s' else s
  | [] => []
  end.

Fixpoint rstrip_by (p : N -> bool) (s : pystr) : pystr :=
  match s with
  | c :: s' =>
      match rstrip_by p s' with
      | [] => if p c then [] else [c]
      | t => c :: t
      end
  | [] => []
  end.

(** [s.strip()]: without argument, whitespace is removed. *)
Definition strip (s : pystr) : pystr := rstrip_by isspace (lstrip_by isspace s).

Definition newline : pystr := [10].

(** Truthiness of a string: [bool(s)]. *)
Definition nonempty (s : pystr) : bool :=
  match s with [] => false | _ => true end.

(** [x or default], for [x] a string or [None]. *)
Definition or_else (x : option pystr) (default : pystr) : pystr :=
  match x with
  | Some s => if nonempty s then s else default
  | None => default
  end.

(** [str(n)] for a non-negative integer. *)
Definition str_of_N (n : N) : pystr := py (NilZero.string_of_uint (N.to_uint n)).

(** The format [{n:03d}]: decimal, padded with zeros to three digits. *)
Definition fmt_03d (n : N) : pystr :=
  let d := str_of_N n in
  replicate (3 - length d) 48 ++ d.

(** [s.startswith(p)] *)
Fixpoint startswith (p s : pystr) : bool :=
  match p, s with
  | [], _ => true
  | a :: p', b :: s' => (a =? b) && startswith p' s'
  | _ :: _, [] => false
  end.

(** ** The fragment of [re] used by the source

    Every pattern of the two files is a sequence of atoms, where an atom is
    one character (a literal or a class), an optional character ([c?]), or a
    greedy repetition of a character class with a lower bound ([c+],
    [c{3,}]). *)

Inductive atom : Type :=
| One (p : N -> bool)
| Opt (p : N -> bool)
| Rep (lo : nat) (p : N -> bool).

Abbreviation regex := (list atom).

(** Length of the longest prefix of [s] whose characters satisfy [p]. *)
Fixpoint span (p : N -> bool) (s : pystr) : nat :=
  match s with
  | c :: s' => if p c then S (span p s') else O
  | [] => O
  end.

(** Backtracking of a greedy repetition: the repetition first takes [k]
    characters, then gives them back one at a time, down to [lo]. *)
Fixpoint try_down (f : nat -> option nat) (lo k : nat) {struct k} : option nat :=
  if (k <? lo)%nat then None
  else match f k with
       | Some n => Some (k + n)%nat
       | None => match k with
                 | O => None
                 | S k' => try_down f lo k'
                 end
       end.

(** [match_here r s]: the match of [r] anchored at the start of [s] that
    the backtracking matcher finds first, as the number of characters it
    consumes. *)
Fixpoint match_here (r : regex) (s : pystr) : option nat :=
  match r with
  | [] => Some O
  | One p :: r' =>
      match s with
      | c :: s' => if p c then S <$> match_here r' s' else None
      | [] => None
      end
  | Opt p :: r' =>
      match s with
      | c :: s' =>
          if p c then
            match match_here r' s' with
            | Some n => Some (S n)
            | None => match_here r' s
            end
          else match_here r' s
      | [] => match_here r' s
      end
  | Rep lo p :: r' =>
      try_down (fun j => match_here r' (drop j s)) lo (span p s)
  end.

(** [re.sub(r, repl, s)] for a pattern that cannot match the empty string
    (none of the patterns of the source can): scan from the left; where the
    pattern matches, emit [repl] and resume after the match; elsewhere copy
    one character.  [skip] counts the characters of the current match that
    are still to be dropped. *)
Fixpoint sub_from (r : regex) (repl : pystr) (skip : nat) (s : pystr) : pystr :=
  match s with
  | [] => []
  | c :: s' =>
      match skip with
      | S k => sub_from r repl k s'
      | O =>
          match match_here r s with
          | Some (S n) => repl ++ sub_from r repl n s'
          | _ => c :: sub_from r repl O s'
          end
      end
  end.

Definition re_sub (r : regex) (repl s : pystr) : pystr := sub_from r repl O s.

(** *** Character classes of the patterns *)

(** [[\t\n\r]] *)
Definition is_tnr : N -> bool := one_of [9; 10; 13].

(** The class of the nine reserved characters: backslash, slash, colon,
    star, question mark, double quote, less-than, greater-than, bar. *)
Definition is_reserved : N -> bool :=
  one_of [92; 47; 58; 42; 63; 34; 60; 62; 124].

Definition is_newline (c : N) : bool := c =? 10.

(** [\S] *)
Definition nonspace (c : N) : bool := negb (isspace c).

(** A literal character. *)
Definition lit (a : ascii) (c : N) : bool := c =? N_of_ascii a.

(** A literal letter under [re.IGNORECASE]: both ASCII cases, and for [s]
    also U+017F (LATIN SMALL LETTER LONG S), which [re] treats as a case
    variant of [s]. *)
Definition lit_i (a : ascii) (c : N) : bool :=
  let l := N_of_ascii a in
  let lo := if (65 <=? l) && (l <=? 90) then l + 32 else l in
  if (97 <=? lo) && (lo <=? 122)
  then (c =? lo) || (c =? lo - 32) || ((lo =? 115) && (c =? 383))
  else c =? l.

(** A literal string as a sequence of atoms. *)
Definition lits (f : ascii -> N -> bool) (s : string) : regex :=
  List.map (fun a => One (f a)) (list_ascii_of_string s).

(** ** Helpers shared by the two programs *)

Section Helpers.

(** [str.isalnum] on code points above the ASCII range (the Unicode
    tables of the interpreter). *)
Variable uni_alnum : N -> bool.

(** [\w] for [str] patterns. *)
Definition is_word (c : N) : bool :=
  if c <? 128 then
    ((48 <=? c) && (c <=? 57)) || ((65 <=? c) && (c <=? 90))
    || ((97 <=? c) && (c <=? 122)) || (c =? 95)
  else uni_alnum c.

(** [r"Ads by\s+\w+"], [re.IGNORECASE] *)
Definition pat_ads_by : regex :=
  lits lit_i "Ads by" ++ [Rep 1 isspace; Rep 1 is_word].

(** [r"Sponsored\s+Content"], [re.IGNORECASE] *)
Definition pat_sponsored : regex :=
  lits lit_i "Sponsored" ++ [Rep 1 isspace] ++ lits lit_i "Content".

(** [r"https?://\S+"] *)
Definition pat_url : regex :=
  lits lit "http" ++ [Opt (lit "s")] ++ lits lit "://" ++ [Rep 1 nonspace].

(** [clean_text] is the same function in both files. *)
Definition clean_text (text : pystr) (remove_links strip_ads : bool) : pystr :=
  let text :=
    if strip_ads
    then fold_left (fun text pat => re_sub pat [] text)
                   [pat_ads_by; pat_sponsored] text
    else text in
  let text := if remove_links then re_sub pat_url [] text else text in
  let text := re_sub [Rep 1 isspace; One is_newline] newline text in
  let text := re_sub [One is_newline; Rep 1 isspace] newline text in
  let text := re_sub [Rep 3 is_newline] (newline ++ newline) text in
  strip text.

End Helpers.



(** ** The part of [urllib.parse] behind [urlparse] and [urljoin]

    Modelled on CPython 3.11.  A parse raises [ValueError] on a malformed
    bracketed host or on a netloc that only looks safe before NFKC
    normalisation; here the result is then [None]. *)

(** [s.find(c)] as an option. *)
Fixpoint find_char (c : N) (s : pystr) : option nat :=
  match s with
  | [] => None
  | x :: s' => if x =? c then Some O else S <$> find_char c s'
  end.

(** [s.rfind(c)] as an option. *)
Fixpoint rfind_char (c : N) (s : pystr) : option nat :=
  match s with
  | [] => None
  | x :: s' =>
      match rfind_char c s' with
      | Some i => Some (S i)
      | None => if x =? c then Some O else None
      end
  end.

(** [c in s] *)
Definition contains (c : N) (s : pystr) : bool := one_of s c.

(** [s.split(c)]: the pieces between the occurrences of [c]. *)
Fixpoint split_on (c : N) (s : pystr) : list pystr :=
  match s with
  | [] => [[]]
  | x :: s' =>
      match split_on c s' with
      | seg :: segs => if x =? c then [] :: seg :: segs else (x :: seg) :: segs
      | [] => [[x]]
      end
  end.

(** [c.join(l)] *)
Fixpoint join_with (c : N) (l : list pystr) : pystr :=
  match l with
  | [] => []
  | [a] => a
  | a :: l' => a ++ c :: join_with c l'
  end.

(** [s.split(c, 1)] where [c] occurs in [s]: the text before the first
    occurrence and the text after it. *)
Definition cut_at (c : N) (s : pystr) : pystr * pystr :=
  match find_char c s with
  | Some i => (take i s, drop (S i) s)
  | None => (s, [])
  end.

(** [s in l] for a list of strings. *)
Definition str_in (s : pystr) (l : list pystr) : bool :=
  existsb (fun t => bool_decide (s = t)) l.

Definition uses_relative : list pystr :=
  List.map py [""; "ftp"; "http"; "gopher"; "nntp"; "imap"; "wais"; "file";
               "https"; "shttp"; "mms"; "prospero"; "rtsp"; "rtspu"; "sftp";
               "svn"; "svn+ssh"; "ws"; "wss"]%string.

Definition uses_netloc : list pystr :=
  List.map py [""; "ftp"; "http"; "gopher"; "nntp"; "telnet"; "imap"; "wais";
               "file"; "mms"; "https"; "shttp"; "snews"; "prospero"; "rtsp";
               "rtspu"; "rsync"; "svn"; "svn+ssh"; "sftp"; "nfs"; "git";
               "git+ssh"; "ws"; "wss"]%string.

Definition uses_params : list pystr :=
  List.map py [""; "ftp"; "hdl"; "prospero"; "http"; "imap"; "https"; "shttp";
               "rtsp"; "rtspu"; "sip"; "sips"; "mms"; "sftp"; "tel"]%string.

Definition ascii_alpha (c : N) : bool :=
  ((65 <=? c) && (c <=? 90)) || ((97 <=? c) && (c <=? 122)).

(** Membership in [scheme_chars]. *)
Definition scheme_char (c : N) : bool :=
  ascii_alpha c || ((48 <=? c) && (c <=? 57)) || one_of [43; 45; 46] c.

(** [str.lower] on the characters a scheme is made of. *)
Definition ascii_lower (c : N) : bool * N :=
  if (65 <=? c) && (c <=? 90) then (true, c + 32) else (false, c).

(** Membership in [_WHATWG_C0_CONTROL_OR_SPACE]. *)
Definition c0_or_space (c : N) : bool := c <=? 32.

(** Removal of the characters of [_UNSAFE_URL_BYTES_TO_REMOVE]. *)
Definition remove_unsafe (s : pystr) : pystr :=
  List.filter (fun c => negb (one_of [9; 13; 10] c)) s.

Record SplitResult : Type := mkSplit {
  sr_scheme : pystr; sr_netloc : pystr; sr_path : pystr;
  sr_query : pystr; sr_fragment : pystr
}.

Record ParseResult : Type := mkParse {
  scheme : pystr; netloc : pystr; path : pystr;
  params : pystr; query : pystr; fragment : pystr
}.

(** [_splitnetloc(url, 2)]: the netloc runs up to the first of [/?#]. *)
Definition _splitnetloc (url : pystr) : pystr * pystr :=
  let n := span (fun c => negb (one_of [47; 63; 35] c)) (drop 2 url) in
  (take n (drop 2 url), drop (2 + n) url).

(** [_splitparams] *)
Definition _splitparams (url : pystr) : pystr * pystr :=
  match rfind_char 47 url with
  | Some j =>
      match find_char 59 (drop j url) with
      | Some i => (take (j + i) url, drop (S (j + i)) url)
      | None => (url, [])
      end
  | None =>
      (* without a slash the caller has checked that a semicolon occurs;
         [find] returning -1 would give [url[:-1], url[0:]] *)
      match find_char 59 url with
      | Some i => (take i url, drop (S i) url)
      | None => (removelast url, url)
      end
  end.

Section Urllib.

(** The two checks of [urlsplit] that need the interpreter's [ipaddress]
    and [unicodedata] modules: [_check_bracketed_netloc] on a netloc with
    both brackets, and [_checknetloc] on a netloc that is not ASCII.
    [true] when the check passes. *)
Variable bracketed_ok : pystr -> bool.
Variable nfkc_ok : pystr -> bool.

Definition netloc_accepted (netloc : pystr) : bool :=
  let lb := contains 91 netloc in
  let rb := contains 93 netloc in
  (if lb && rb then bracketed_ok netloc else negb (lb || rb))
  && (negb (nonempty netloc) || forallb (fun c => c <? 128) netloc
      || nfkc_ok netloc).

Definition urlsplit (url default_scheme : pystr) : option SplitResult :=
  let url := remove_unsafe (lstrip_by c0_or_space url) in
  let default_scheme :=
    remove_unsafe (rstrip_by c0_or_space (lstrip_by c0_or_space default_scheme)) in
  let '(scheme, url) :=
    match find_char 58 url with
    | Some (S i) =>
        if forallb ascii_alpha (take 1 url) && forallb scheme_char (take (S i) url)
        then (List.map (fun c => snd (ascii_lower c)) (take (S i) url),
              drop (S (S i)) url)
        else (default_scheme, url)
    | _ => (default_scheme, url)
    end in
  let '(netloc, url) :=
    if bool_decide (take 2 url = [47; 47]) then _splitnetloc url else ([], url) in
  let '(url, fragment) :=
    if contains 35 url then cut_at 35 url else (url, []) in
  let '(url, query) :=
    if contains 63 url then cut_at 63 url else (url, []) in
  if netloc_accepted netloc
  then Some (mkSplit scheme netloc url query fragment)
  else None.

Definition urlparse (url default_scheme : pystr) : option ParseResult :=
  match urlsplit url default_scheme with
  | Some (mkSplit scheme netloc url query fragment) =>
      let '(url, params) :=
        if str_in scheme uses_params && contains 59 url
        then _splitparams url else (url, []) in
      Some (mkParse scheme netloc url params query fragment)
  | None => None
  end.

Definition urlunsplit (scheme netloc url query fragment : pystr) : pystr :=
  let url :=
    if nonempty netloc
       || (nonempty scheme && str_in scheme uses_netloc
           && negb (bool_decide (take 2 url = [47; 47])))
    then py "//" ++ netloc
         ++ (if nonempty url && negb (bool_decide (take 1 url = [47]))
             then 47 :: url else url)
    else url in
  let url := if nonempty scheme then scheme ++ 58 :: url else url in
  let url := if nonempty query then url ++ 63 :: query else url in
  if nonempty fragment then url ++ 35 :: fragment else url.

Definition urlunparse (p : ParseResult) : pystr :=
  urlunsplit (scheme p) (netloc p)
             (if nonempty (params p) then path p ++ 59 :: params p else path p)
             (query p) (fragment p).

(** [segments[1:-1] = filter(None, segments[1:-1])] *)
Definition drop_empty_middle (segments : list pystr) : list pystr :=
  match segments with
  | a :: b :: rest =>
      a :: List.filter nonempty (removelast (b :: rest)) ++ [List.last (b :: rest) []]
  | _ => segments
  end.

(** The loop of [urljoin] that resolves the dot segments; [resolved] is
    kept in reverse. *)
Fixpoint resolve_dots (segments resolved : list pystr) : list pystr :=
  match segments with
  | [] => rev resolved
  | seg :: rest =>
      if bool_decide (seg = py "..") then resolve_dots rest (tail resolved)
      else if bool_decide (seg = py ".") then resolve_dots rest resolved
      else resolve_dots rest (seg :: resolved)
  end.

Definition urljoin (base url : pystr) : option pystr :=
  if negb (nonempty base) then Some url
  else if negb (nonempty url) then Some base
  else
    match urlparse base [] with
    | None => None
    | Some b =>
        match urlparse url (scheme b) with
        | None => None
        | Some u =>
            if negb (bool_decide (scheme u = scheme b))
               || negb (str_in (scheme u) uses_relative)
            then Some url
            else if str_in (scheme u) uses_netloc && nonempty (netloc u)
            then Some (urlunparse u)
            else
              let netloc' :=
                if str_in (scheme u) uses_netloc then netloc b else netloc u in
              if negb (nonempty (path u)) && negb (nonempty (params u))
              then Some (urlunparse
                           (mkParse (scheme u) netloc' (path b) (params b)
                                    (if nonempty (query u) then query u else query b)
                                    (fragment u)))
              else
                let base_parts := split_on 47 (path b) in
                let base_parts :=
                  if nonempty (List.last base_parts [])
                  then removelast base_parts else base_parts in
                let segments :=
                  if bool_decide (take 1 (path u) = [47])
                  then split_on 47 (path u)
                  else drop_empty_middle (base_parts ++ split_on 47 (path u)) in
                let resolved := resolve_dots segments [] in
                let resolved :=
                  if str_in (List.last segments []) [py "."; py ".."]
                  then resolved ++ [[]] else resolved in
                let joined := join_with 47 resolved in
                Some (urlunparse
                        (mkParse (scheme u) netloc'
                                 (if nonempty joined then joined else [47])
                                 (params u) (query u) (fragment u)))
        end
    end.

End Urllib.

(** ** The environment of a run

    The browsing driver, the random number generator and the clock are
    outside the repository.  A run is modelled against a script of what they
    answer, and leaves a trace of what it asked of them. *)

(** What the driver can raise: Playwright's [TimeoutError], or any other
    [Exception]. *)
Inductive exn : Type := PWTimeout | OtherError.

(** What one navigation to a chapter page meets: whether [page.goto] and
    the [page.wait_for_timeout] that follows raise, and what
    [page.eval_on_selector] gives for the title and the content selector (an
    exception, [None], or a string).  [pacing_raises] is for the second
    [wait_for_timeout] of the Tk front end. *)
Record page : Type := mkPage {
  goto_raises : option exn;
  wait_raises : option exn;
  title_inner_text : exn + option pystr;
  content_inner_text : exn + option pystr;
  pacing_raises : option exn
}.

(** The driver of a run: the load of the TOC page, the hrefs the link
    selector gives there, and the page met by the [n]-th chapter navigation
    of the run, which may depend on the URL. *)
Record driver : Type := mkDriver {
  toc_goto_raises : option exn;
  toc_wait_raises : option exn;
  toc_hrefs : list (option pystr);
  chapter_page : nat -> pystr -> page
}.

(** Lines printed or logged by the two programs. *)
Inductive message : Type :=
| MsgSaved (path : pystr)
| MsgRetry (e : exn) (url : pystr) (attempt retries : Z)
| MsgGivingUp (e : exn) (url : pystr)
| MsgSkipping (e : exn) (url : pystr)
| MsgOpening (idx total : N) (url : pystr)
| MsgSleeping (delay : Q)
| MsgStopped
| MsgDryRun (idx : N) (url : pystr)
| MsgDone.

Inductive event : Type :=
| Goto (url : pystr)
| WaitForTimeout (ms : Z)
| Sleep (seconds : Q)
| Print (m : message).

(** The state a run threads: the files of the output folder by path, the
    text written so far to the open [combined.txt], the trace, and how many
    chapter navigations and random draws were made. *)
Record world : Type := mkWorld {
  files : gmap pystr pystr;
  combined : pystr;
  trace : list event;
  navs : nat;
  draws : nat
}.

Definition emit (e : event) (w : world) : world :=
  mkWorld (files w) (combined w) (trace w ++ [e]) (navs w) (draws w).

Definition count_nav (w : world) : world :=
  mkWorld (files w) (combined w) (trace w) (S (navs w)) (draws w).

Definition count_draw (w : world) : world :=
  mkWorld (files w) (combined w) (trace w) (navs w) (S (draws w)).

Definition write_file (p content : pystr) (w : world) : world :=
  mkWorld (<[p := content]> (files w)) (combined w) (trace w) (navs w) (draws w).

Definition append_combined (text : pystr) (w : world) : world :=
  mkWorld (files w) (combined w ++ text) (trace w) (navs w) (draws w).

(** [open(combined_path, "w")] *)
Definition open_combined (w : world) : world :=
  mkWorld (files w) [] (trace w) (navs w) (draws w).

(** [random.uniform(a, b)] is [a + (b - a) * random.random()]; [r] is the
    draw, in [0, 1).  Durations are exact rationals here. *)
Definition uniform (a b r : Q) : Q := a + (b - a) * r.

(** [max(a, b)] of Python: [b] when it is greater, else [a]. *)
Definition py_max (a b : Q) : Q := if Qlt_le_dec a b then b else a.

(** [int(x)]: truncation towards zero. *)
Definition py_int (x : Q) : Z := Z.quot (Qnum x) (Zpos (Qden x)).

(** [os.path.join(a, b)] of [posixpath]. *)
Definition path_join (a b : pystr) : pystr :=
  if startswith [47] b then b
  else if negb (nonempty a) || bool_decide (List.last a 0 = 47) then a ++ b
  else a ++ 47 :: b.

(** The text both programs write for a chapter, up to its last line
    break. *)
Definition chapter_block (include_links : bool) (title url text : pystr) : pystr :=
  title ++ newline ++ newline
  ++ (if include_links then py "Source: " ++ url ++ newline ++ newline else [])
  ++ text.

(** ["-" * 80] *)
Definition separator : pystr := replicate 80 45.

(** The list comprehension [[l for l in links if l]]. *)
Definition truthy_links (hrefs : list (option pystr)) : list pystr :=
  omap (fun l => match l with
                 | Some s => if nonempty s then Some s else None
                 | None => None
                 end) hrefs.

(** [enumerate(links, start)] *)
Fixpoint enumerate (start : N) (links : list pystr) : list (N * pystr) :=
  match links with
  | [] => []
  | l :: links' => (start, l) :: enumerate (N.succ start) links'
  end.

Section Resolve.

Variable bracketed_ok : pystr -> bool.
Variable nfkc_ok : pystr -> bool.

(** [f"{urlparse(toc).scheme}://{urlparse(toc).netloc}"] *)
Definition origin (toc : pystr) : option pystr :=
  match urlparse bracketed_ok nfkc_ok toc [] with
  | Some p => Some (scheme p ++ py "://" ++ netloc p)
  | None => None
  end.

(** [l if l.startswith("http") else urljoin(base, l)] *)
Definition absolute (base l : pystr) : option pystr :=
  if startswith (py "http") l then Some l
  else urljoin bracketed_ok nfkc_ok base l.

(** The comprehension over all links; an exception of [urljoin] leaves
    it. *)
Definition absolute_all (base : pystr) (links : list pystr) : option (list pystr) :=
  mapM (absolute base) links.

End Resolve.

(** [links[:n]] for an integer [n] of either sign. *)
Definition slice_to (n : Z) (links : list pystr) : list pystr :=
  if (0 <=? n)%Z then take (Z.to_nat n) links
  else take (List.length links - Z.to_nat (- n)) links.

(** ** [cli_runner.py] *)

Module cli_runner.

Definition safe_filename (name : pystr) : pystr :=
  let name := strip (re_sub [One is_tnr] (py " ") name) in
  let name := re_sub [Rep 1 is_reserved] (py "_") name in
  let name := re_sub [Rep 1 isspace] (py " ") name in
  take 150 (if nonempty name then name else py "untitled").

(** The command line, after [argparse].  The options that only select
    debugging artefacts or the browser context ([--dump-html],
    [--screenshot], [--ua], [--storage-state], [--headful], [--timeout])
    and the three selectors, which the driver interprets, are left out. *)
Record Args : Type := mkArgs {
  toc : pystr;
  max : Z;
  out : pystr;
  include_links : bool;
  no_strip_ads : bool;
  dry_run : bool;
  min_delay : Q;
  max_delay : Q;
  retries : Z;
  wait_after_load : Z
}.

(** How the [while True] loop of a chapter is left: through the [break]
    after a success or through the one after giving up, and the value of
    [attempt] then. *)
Inductive outcome : Type :=
| Succeeded (attempt : Z)
| GaveUp (attempt : Z) (e : exn).

(** How [main] ends. *)
Inductive exit_reason : Type :=
| InvalidTocUrl
| TocTimeout
| TocLoadFailed
| NoLinksFound.

(** [Uncaught] is for a [ValueError] of [urllib.parse] in the link
    collection, which no handler catches. *)
Inductive status : Type :=
| Exit (r : exit_reason)
| DryRun (links : list (N * pystr))
| Done (outcomes : list outcome)
| Uncaught.

Section Main.

Variable uni_alnum : N -> bool.
Variable bracketed_ok : pystr -> bool.
Variable nfkc_ok : pystr -> bool.

Definition is_valid_url (u : pystr) : bool :=
  match urlparse bracketed_ok nfkc_ok u [] with
  | Some p => str_in (scheme p) [py "http"; py "https"] && nonempty (netloc p)
  | None => false
  end.

Variable args : Args.
Variable d : driver.
Variable rnd : nat -> Q.

Definition sleep_polite (min_s max_s : Q) (w : world) : world :=
  let delay := py_max 0 (uniform min_s max_s (rnd (draws w))) in
  let w := count_draw w in
  if Qeq_bool delay 0 then w else emit (Sleep delay) w.

Definition min_d : Q := py_max 0 (min_delay args).
Definition max_d : Q := py_max min_d (max_delay args).
Definition strip_ads : bool := negb (no_strip_ads args).

(** The body of the [try] for chapter [i] at [url]: [None] when it runs
    to its [break], else the exception caught. *)
Definition attempt_once (i : N) (url : pystr) (w : world) : world * option exn :=
  let pg := chapter_page d (navs w) url in
  let w := emit (Goto url) (count_nav w) in
  match goto_raises pg with
  | Some e => (w, Some e)
  | None =>
      let '(w, r) :=
        if (wait_after_load args =? 0)%Z then (w, None)
        else (emit (WaitForTimeout (wait_after_load args)) w, wait_raises pg) in
      match r with
      | Some e => (w, Some e)
      | None =>
          match title_inner_text pg with
          | inl e => (w, Some e)
          | inr t =>
              match content_inner_text pg with
              | inl e => (w, Some e)
              | inr b =>
                  let title := or_else t (py "chapter_" ++ str_of_N i) in
                  let body := or_else b [] in
                  let title := safe_filename title in
                  let text :=
                    clean_text uni_alnum body (negb (include_links args)) strip_ads in
                  let p :=
                    path_join (out args)
                              (fmt_03d i ++ py " - " ++ title ++ py ".txt") in
                  let block := chapter_block (include_links args) title url text in
                  let w := write_file p (block ++ newline) w in
                  let w :=
                    append_combined
                      (block ++ newline ++ newline ++ separator ++ newline ++ newline) w in
                  (emit (Print (MsgSaved p)) w, None)
              end
          end
      end
  end.

(** The [while True] loop of one chapter; [attempt] is the counter on
    entry of the iteration.  [fuel] bounds the iterations; when it runs
    out the result is [None]. *)
Fixpoint attempts (fuel : nat) (i : N) (url : pystr) (attempt : Z) (w : world)
  : option (world * outcome) :=
  match fuel with
  | O => None
  | S fuel' =>
      let attempt := (attempt + 1)%Z in
      match attempt_once i url w with
      | (w, None) => Some (w, Succeeded attempt)
      | (w, Some e) =>
          if (attempt <=? retries args)%Z
          then
            let w := emit (Print (MsgRetry e url attempt (retries args))) w in
            attempts fuel' i url attempt (sleep_polite min_d max_d w)
          else Some (emit (Print (MsgGivingUp e url)) w, GaveUp attempt e)
      end
  end.

(** One iteration of the [for] loop: the retry loop, started with
    [attempt = 0], then the pacing between chapters. *)
Definition chapter (i : N) (url : pystr) (w : world) : option (world * outcome) :=
  match attempts (S (Z.to_nat (retries args))) i url 0 w with
  | Some (w, o) => Some (sleep_polite min_d max_d w, o)
  | None => None
  end.

(** The [for] loop over the enumerated links. *)
Fixpoint chapters (links : list (N * pystr)) (w : world)
  : option (world * list outcome) :=
  match links with
  | [] => Some (w, [])
  | (i, url) :: rest =>
      match chapter i url w with
      | Some (w, o) =>
          match chapters rest w with
          | Some (w, os) => Some (w, o :: os)
          | None => None
          end
      | None => None
      end
  end.

(** The link collection of [main]: filter, make absolute, cap. *)
Definition collect_links : status + list pystr :=
  let links := truthy_links (toc_hrefs d) in
  if negb (bool_decide (links <> [])) then inl (Exit NoLinksFound)
  else
    match origin bracketed_ok nfkc_ok (toc args) with
    | None => inl Uncaught
    | Some base =>
        match absolute_all bracketed_ok nfkc_ok base links with
        | None => inl Uncaught
        | Some links => inr (slice_to (Z.max 1 (max args)) links)
        end
    end.

(** [main], from the validation of [--toc] on, started with the files
    [fs] in place. *)
Definition main (fs : gmap pystr pystr) : option (world * status) :=
  let w := mkWorld fs [] [] O O in
  if negb (is_valid_url (toc args)) then Some (w, Exit InvalidTocUrl)
  else
    let w := emit (Goto (toc args)) w in
    let '(w, r) :=
      match toc_goto_raises d with
      | Some e => (w, Some e)
      | None =>
          if (wait_after_load args =? 0)%Z then (w, None)
          else (emit (WaitForTimeout (wait_after_load args)) w, toc_wait_raises d)
      end in
    match r with
    | Some PWTimeout => Some (w, Exit TocTimeout)
    | Some OtherError => Some (w, Exit TocLoadFailed)
    | None =>
        match collect_links with
        | inl st => Some (w, st)
        | inr links =>
            let links := enumerate 1 links in
            if dry_run args
            then Some (fold_left (fun w l => emit (Print (MsgDryRun l.1 l.2)) w) links w,
                       DryRun links)
            else
              match chapters links (open_combined w) with
              | Some (w, os) => Some (emit (Print MsgDone) w, Done os)
              | None => None
              end
        end
    end.

End Main.

End cli_runner.

(** ** [toc_playwright.py] *)

Module toc_playwright.

Definition DEFAULT_COUNT : Z := 20.

Definition safe_filename (name : pystr) : pystr :=
  let name := strip (re_sub [One is_tnr] (py " ") name) in
  let name := re_sub [One is_reserved] (py "_") name in
  let name := re_sub [Rep 1 isspace] (py " ") name in
  if nonempty name then take 150 name else py "untitled".

(** The Tk variables of the form. *)
Record Form : Type := mkForm {
  toc_url_var : pystr;
  link_selector_var : pystr;
  title_selector_var : pystr;
  content_selector_var : pystr;
  max_count_var : Z;
  output_dir_var : pystr;
  include_links_var : bool;
  strip_ads_var : bool;
  min_delay_var : Q;
  max_delay_var : Q
}.

(** How the [try] of one chapter ends: at its end, or in one of the two
    handlers, which log and skip. *)
Inductive outcome : Type :=
| Saved
| Skipped (e : exn).



Section Run.

Variable uni_alnum : N -> bool.
Variable bracketed_ok : pystr -> bool.
Variable nfkc_ok : pystr -> bool.

(** [os.path.abspath("./downloads")] *)
Variable DEFAULT_OUTPUT_DIR : pystr.

Variable form : Form.
Variable d : driver.
Variable rnd : nat -> Q.

(** Whether the readiness event is set within the ten minutes, and the
    value of [is_running] read at the top of the iteration for chapter
    [idx] (the Stop button clears it from the Tk thread). *)
Variable ready : bool.
Variable is_running : N -> bool.

Definition include_links : bool := include_links_var form.
Definition strip_ads : bool := strip_ads_var form.

Definition min_d : Q :=
  if Qlt_le_dec (min_delay_var form) 0 then 0 else min_delay_var form.
Definition max_d : Q :=
  if Qlt_le_dec (max_delay_var form) min_d then min_d else max_delay_var form.

Definition out_dir : pystr :=
  let o := strip (output_dir_var form) in
  if nonempty o then o else DEFAULT_OUTPUT_DIR.

(** The handlers of the [try]. *)
Definition skipping (e : exn) (url : pystr) (w : world) : world * outcome :=
  (emit (Print (MsgSkipping e url)) w, Skipped e).

(** The body of the [try] for chapter [idx] at [url], with its
    handlers. *)
Definition visit (idx : N) (url : pystr) (w : world) : world * outcome :=
  let pg := chapter_page d (navs w) url in
  let w := emit (Goto url) (count_nav w) in
  match goto_raises pg with
  | Some e => skipping e url w
  | None =>
      let w := emit (WaitForTimeout 500) w in
      match wait_raises pg with
      | Some e => skipping e url w
      | None =>
          match title_inner_text pg with
          | inl e => skipping e url w
          | inr t =>
              match content_inner_text pg with
              | inl e => skipping e url w
              | inr b =>
                  if negb (nonempty (or_else b []))
                  then skipping OtherError url w
                  else
                    let body := or_else b [] in
                    let title :=
                      safe_filename (or_else t (py "chapter_" ++ str_of_N idx)) in
                    let cleaned :=
                      clean_text uni_alnum body (negb include_links) strip_ads in
                    let chapter_path :=
                      path_join out_dir
                                (fmt_03d idx ++ py " - " ++ title ++ py ".txt") in
                    let block := chapter_block include_links title url cleaned in
                    let w := write_file chapter_path (block ++ newline) w in
                    let w :=
                      append_combined
                        (block ++ newline ++ newline ++ separator
                         ++ newline ++ newline) w in
                    let w := emit (Print (MsgSaved chapter_path)) w in
                    let delay := uniform min_d max_d (rnd (draws w)) in
                    let w := emit (Print (MsgSleeping delay)) (count_draw w) in
                    let w := emit (WaitForTimeout (py_int (delay * 1000))) w in
                    match pacing_raises pg with
                    | Some e => skipping e url w
                    | None => (w, Saved)
                    end
              end
          end
      end
  end.

(** The [for] loop over the enumerated links. *)
Fixpoint chapters (total : N) (links : list (N * pystr)) (w : world)
  : world * list outcome :=
  match links with
  | [] => (w, [])
  | (idx, url) :: rest =>
      if negb (is_running idx) then (emit (Print MsgStopped) w, [])
      else
        let w := emit (Print (MsgOpening idx total url)) w in
        let '(w, o) := visit idx url w in
        let '(w, os) := chapters total rest w in
        (w, o :: os)
  end.

(** The links [_run_extraction] works on; [None] when it returns (or
    is left by an exception of [urllib]) before the loop. *)
Definition collect_links : option (list pystr) :=
  let links := truthy_links (toc_hrefs d) in
  if negb (bool_decide (links <> [])) then None
  else
    match origin bracketed_ok nfkc_ok (strip (toc_url_var form)) with
    | None => None
    | Some base =>
        match absolute_all bracketed_ok nfkc_ok base links with
        | None => None
        | Some links =>
            let max_count :=
              if (max_count_var form =? 0)%Z then DEFAULT_COUNT
              else max_count_var form in
            Some (slice_to max_count links)
        end
    end.

(** [_run_extraction], on the page that [launch_browser] left at the
    TOC. *)
Definition _run_extraction (w : world) : world * list outcome :=
  if negb ready then (w, [])
  else
    match collect_links with
    | None => (w, [])
    | Some links =>
        let '(w, os) :=
          chapters (N.of_nat (List.length links)) (enumerate 1 links)
                   (open_combined w) in
        (emit (Print MsgDone) w, os)
    end.

End Run.

End toc_playwright.

(** ** Vocabulary of the specification *)

(** A name without any of the nine reserved characters. *)
Definition no_reserved (s : pystr) : Prop :=
  Forall (fun c => is_reserved c = false) s.

(** In the words of the specification: every maximal run of reserved
    characters becomes one underscore.  [in_run] tells that the previous
    character was reserved, so that the underscore of the run is out
    already. *)
Fixpoint runs_to_underscore (in_run : bool) (s : pystr) : pystr :=
  match s with
  | [] => []
  | c :: s' =>
      if is_reserved c
      then (if in_run then [] else [95]) ++ runs_to_underscore true s'
      else c :: runs_to_underscore false s'
  end.

(** Every reserved character becomes an underscore of its own. *)
Definition each_to_underscore (s : pystr) : pystr :=
  List.map (fun c => if is_reserved c then 95 else c) s.

(** The whitespace normalisation that ends [clean_text]: the three
    substitutions and the [strip]. *)
Definition normalize_whitespace (text : pystr) : pystr :=
  let text := re_sub [Rep 1 isspace; One is_newline] newline text in
  let text := re_sub [One is_newline; Rep 1 isspace] newline text in
  let text := re_sub [Rep 3 is_newline] (newline ++ newline) text in
  strip text.

(** No two neighbours of [s] are in the relation [P]. *)
Fixpoint no_pair (P : N -> N -> bool) (s : pystr) : bool :=
  match s with
  | [] => true
  | a :: s' =>
      match head s' with Some b => negb (P a b) | None => true end
      && no_pair P s'
  end.

Definition space_then_newline (a b : N) : bool := isspace a && is_newline b.
Definition newline_then_space (a b : N) : bool := is_newline a && isspace b.

(** One more than the position of the last newline in the whitespace that
    [s] starts with, if there is one. *)
Fixpoint last_newline (s : pystr) : option nat :=
  match s with
  | [] => None
  | c :: s' =>
      if isspace c then
        match last_newline s' with
        | Some n => Some (S n)
        | None => if is_newline c then Some 1%nat else None
        end
      else None
  end.

(** The pattern starts with an atom that takes at least one character. *)
Definition first_consumes (r : regex) : Prop :=
  match r with
  | One _ :: _ | Rep (S _) _ :: _ => True
  | _ => False
  end.

(** The pattern matches at no position of [s]. *)
Fixpoint nowhere (r : regex) (s : pystr) : Prop :=
  match_here r s = None
  /\ match s with [] => True | _ :: s' => nowhere r s' end.

(** The class an atom draws its characters from. *)
Definition atom_class (a : atom) : N -> bool :=
  match a with One p | Opt p | Rep _ p => p end.

(** Patterns made of single and optional characters that are not
    whitespace, closed by a greedy, non-empty run of [\S]. *)
Fixpoint ends_greedy (r : regex) : Prop :=
  match r with
  | [] => False
  | [Rep (S _) p] => p = nonspace
  | One p :: r' | Opt p :: r' =>
      (forall c, p c = true -> isspace c = false) /\ ends_greedy r'
  | Rep _ _ :: _ => False
  end.

(** The URLs of the navigations in a trace, in order. *)
Definition gotos (t : list event) : list pystr :=
  omap (fun e => match e with Goto url => Some url | _ => None end) t.

(** The pauses between operations in a trace: the [time.sleep] of the
    command line runner, in seconds. *)
Definition sleeps (t : list event) : list Q :=
  omap (fun e => match e with Sleep s => Some s | _ => None end) t.

(** What the driver raises on a page before anything is written: the first
    exception among the navigation, the settle wait (made when [wait] is
    not zero) and the two selector evaluations. *)
Definition raised (wait : Z) (pg : page) : option exn :=
  match goto_raises pg with
  | Some e => Some e
  | None =>
      match (if (wait =? 0)%Z then None else wait_raises pg) with
      | Some e => Some e
      | None =>
          match title_inner_text pg with
          | inl e => Some e
          | inr _ =>
              match content_inner_text pg with
              | inl e => Some e
              | inr _ => None
              end
          end
      end
  end.

(** [w'] is [w] after the events [evs], with nothing written. *)
Definition only_events (w w' : world) (evs : list event) : Prop :=
  files w' = files w /\ combined w' = combined w /\ trace w' = trace w ++ evs.

(** What [normalize_whitespace] leaves: no whitespace next to a newline,
    none at either end. *)
Definition tidy (s : pystr) : Prop :=
  no_pair space_then_newline s = true
  /\ no_pair newline_then_space s = true
  /\ strip s = s.

(** The calls to the driver and to the clock in a trace: the trace without
    its log lines. *)
Definition actions (t : list event) : list event :=
  List.filter (fun e => match e with Print _ => false | _ => true end) t.





(** The URL kept for the href [l], with [base] the origin of the TOC: [l]
    itself when it starts with [http], else its join with the origin. *)
Definition resolved (bracketed_ok nfkc_ok : pystr -> bool) (base l u : pystr) : Prop :=
  if startswith (py "http") l then u = l
  else urljoin bracketed_ok nfkc_ok base l = Some u.


(** ** The delays of the example as floats

    Durations are rationals in the model above.  For the inverted delays of
    the specification the same computation is done here on IEEE 754
    binary64 numbers, as Python floats are. *)

Module binary64.

Definition add : spec_float -> spec_float -> spec_float := SFadd 53 1024.
Definition sub : spec_float -> spec_float -> spec_float := SFsub 53 1024.
Definition mul : spec_float -> spec_float -> spec_float := SFmul 53 1024.

(** [max(a, b)] of Python. *)
Definition py_max (a b : spec_float) : spec_float := if SFltb a b then b else a.

(** [random.uniform(a, b)], with [r] the draw of [random.random()]. *)
Definition uniform (a b r : spec_float) : spec_float := add a (mul (sub b a) r).

Definition zero : spec_float := S754_zero false.
Definition one : spec_float := S754_finite false 4503599627370496 (-52).
Definition half : spec_float := S754_finite false 4503599627370496 (-53).

(** A float that is a number. *)
Definition finite (x : spec_float) : Prop :=
  match x with
  | S754_zero _ | S754_finite _ _ _ => True
  | S754_infinity _ | S754_nan => False
  end.

End binary64.

(** ** Vocabulary of the run accounting *)

(** The value of [attempt] with which the loop of a chapter was left. *)
Definition attempt_of (o : cli_runner.outcome) : Z :=
  match o with
  | cli_runner.Succeeded a | cli_runner.GaveUp a _ => a
  end.


(** The path of the file of chapter [i]. *)
Definition chapter_path (out : pystr) (i : N) (title : pystr) : pystr :=
  path_join out (fmt_03d i ++ py " - " ++ title ++ py ".txt").

(** What a saved chapter adds to the combined transcript: its block, a
    blank line, the rule of 80 dashes and another blank line. *)
Definition combined_block (include_links : bool) (title url text : pystr) : pystr :=
  chapter_block include_links title url text
  ++ newline ++ newline ++ separator ++ newline ++ newline.





(** A name whose only whitespace is single plain spaces between other
    characters or at its end: every whitespace character is U+0020, no two
    of them are neighbours, and the name does not start with one. *)
Definition single_spaced (s : pystr) : Prop :=
  Forall (fun c => isspace c = true -> c = 32) s
  /\ no_pair (fun a b => isspace a && isspace b) s = true
  /\ forall x, head s = Some x -> isspace x = false.

(** A decimal digit, and the number that a string of digits denotes. *)
Definition is_digit (c : N) : bool := (48 <=? c) && (c <=? 57).

Definition decimal_value (s : pystr) : N :=
  fold_left (fun acc c => 10 * acc + (c - 48)) s 0.

(** The output folder as [os.path.join] starts a path with it: with a
    slash added, unless it is empty or ends with one. *)
Definition folder_prefix (out : pystr) : pystr :=
  if negb (nonempty out) || bool_decide (List.last out 0 = 47) then out
  else out ++ [47].

(** The name of the file of chapter [i] inside the output folder. *)
Definition chapter_file (i : N) (title : pystr) : pystr :=
  fmt_03d i ++ py " - " ++ title ++ py ".txt".


(** ** Runs used as examples *)

(** A page on which every call of the driver succeeds. *)
Definition good_page (title body : pystr) : page :=
  mkPage None None (inr (Some title)) (inr (Some body)) None.

(** A page whose navigation times out. *)
Definition timeout_page : page :=
  mkPage (Some PWTimeout) None (inr None) (inr None) None.


(** The two chapter URLs of the examples. *)
Definition url1 : pystr := py "https://ex.test/c/1".

(** Two chapters; the first one never loads. *)
Definition first_times_out : driver :=
  mkDriver None None [Some (py "/c/1"); Some (py "/c/2")]
    (fun _ url =>
       if bool_decide (url = url1) then timeout_page
       else good_page (py "Two") (py "Second body")).



(** The form filled in the same way. *)
Definition example_form : toc_playwright.Form :=
  toc_playwright.mkForm (py "https://ex.test/book/toc") (py "a") (py "h1")
                        (py "article") 20 (py "out") false true 1 (1 # 2).

(** A random number generator that always draws one half. *)
Definition always_half : nat -> Q := fun _ => 1 # 2.

(** An interpreter without letters beyond ASCII, and whose checks of the
    netloc always pass. *)
Definition ascii_only : N -> bool := fun _ => false.
Definition accept : pystr -> bool := fun _ => true.




(** The arguments of the example with [--retries -3]. *)
Definition negative_retries_args : cli_runner.Args :=
  cli_runner.mkArgs (py "https://ex.test/book/toc") 20 (py "out")
                    false false false 1 (1 # 2) (-3) 500.


(** The state before a run: no file, nothing traced. *)
Definition blank : world := mkWorld ∅ [] [] O O.

(** * Properties *)

(** ** The matcher and [re.sub] *)

Lemma sub_from_skip r repl k s :
  sub_from r repl k s = re_sub r repl (drop k s).
Proof.
  revert k; induction s as [|c s IH]; intros [|k]; try reflexivity.
  cbn [sub_from drop]. apply IH.
Qed.

(** The scan, one step at a time. *)
Lemma re_sub_cons r repl c s :
  re_sub r repl (c :: s) =
  match match_here r (c :: s) with
  | Some (S n) => repl ++ re_sub r repl (drop n s)
  | _ => c :: re_sub r repl s
  end.
Proof.
  unfold re_sub at 1. cbn [sub_from].
  destruct (match_here r (c :: s)) as [[|n]|]; try reflexivity.
  now rewrite sub_from_skip.
Qed.

Lemma re_sub_step_match r repl c s n :
  match_here r (c :: s) = Some (S n) ->
  re_sub r repl (c :: s) = repl ++ re_sub r repl (drop n s).
Proof. intros H. now rewrite re_sub_cons, H. Qed.

Lemma re_sub_step_copy r repl c s :
  match_here r (c :: s) = None ->
  re_sub r repl (c :: s) = c :: re_sub r repl s.
Proof. intros H. now rewrite re_sub_cons, H. Qed.

(** Substitution only ever emits characters of its input or of the
    replacement. *)
Lemma sub_from_Forall (P : N -> Prop) r repl k s :
  Forall P s -> Forall P repl -> Forall P (sub_from r repl k s).
Proof.
  intros Hs Hr. revert k. induction Hs as [|c s Hc Hs IH]; intros k.
  - constructor.
  - cbn [sub_from]. destruct k as [|k]; [|apply IH].
    destruct (match_here r (c :: s)) as [[|n]|].
    + constructor; [exact Hc | apply IH].
    + apply Forall_app; split; [exact Hr | apply IH].
    + constructor; [exact Hc | apply IH].
Qed.

Lemma re_sub_Forall (P : N -> Prop) r repl s :
  Forall P s -> Forall P repl -> Forall P (re_sub r repl s).
Proof. apply sub_from_Forall. Qed.

(** A text in which the pattern matches nowhere is left as it is. *)
Lemma re_sub_no_match r repl s :
  (forall i, match_here r (drop i s) = None) -> re_sub r repl s = s.
Proof.
  induction s as [|c s IH]; intros H; [reflexivity|].
  rewrite re_sub_step_copy by exact (H O).
  f_equal. apply IH. intros i. exact (H (S i)).
Qed.

(** *** Backtracking *)

Lemma try_down_ext f g lo k :
  (forall j, (j <= k)%nat -> f j = g j) -> try_down f lo k = try_down g lo k.
Proof.
  induction k as [|k IH]; intros H; cbn [try_down].
  - now rewrite (H O) by lia.
  - rewrite (H (S k)) by lia. rewrite IH; [reflexivity|].
    intros j Hj. apply H. lia.
Qed.

(** A greedy repetition at the end of a pattern takes the whole run. *)
Lemma try_down_last lo k :
  try_down (fun _ => Some O) lo k = if (k <? lo)%nat then None else Some k.
Proof.
  destruct k; cbn [try_down]; destruct (_ <? _)%nat; try reflexivity;
    f_equal; lia.
Qed.

Lemma match_here_rep_last lo p s :
  match_here [Rep lo p] s = if (span p s <? lo)%nat then None else Some (span p s).
Proof. cbn [match_here]. apply try_down_last. Qed.

Lemma match_here_one p s :
  match_here [One p] s =
  match s with c :: _ => if p c then Some 1%nat else None | [] => None end.
Proof. destruct s as [|c s]; [reflexivity|]. cbn. now destruct (p c). Qed.

(** No pattern of the source matches the empty string, which is what
    [re_sub] relies on. *)
Lemma match_here_consumes r s n :
  first_consumes r -> match_here r s = Some n -> (0 < n)%nat.
Proof.
  destruct r as [|[p|p|[|lo] p] r]; try easy; intros _; cbn [match_here].
  - destruct s as [|c s]; [discriminate|]. destruct (p c); [|discriminate].
    destruct (match_here r s); [|discriminate]. intros [= <-]. lia.
  - generalize (span p s). intros k. induction k as [|k IH]; cbn [try_down].
    + discriminate.
    + destruct (S k <? S lo)%nat; [discriminate|].
      destruct (match_here r (drop (S k) s)); [intros [= <-]; lia | exact IH].
Qed.

Lemma source_patterns_consume u :
  Forall first_consumes
    [[One is_tnr]; [Rep 1 is_reserved]; [One is_reserved]; [Rep 1 isspace];
     pat_ads_by u; pat_sponsored; pat_url;
     [Rep 1 isspace; One is_newline]; [One is_newline; Rep 1 isspace];
     [Rep 3 is_newline]].
Proof. repeat constructor. Qed.

(** Induction on the length of a text. *)
Lemma pystr_len_ind (P : pystr -> Prop) :
  (forall s, (forall t, (List.length t < List.length s)%nat -> P t) -> P s) ->
  forall s, P s.
Proof.
  intros H s. remember (List.length s) as n eqn:E. revert s E.
  induction n as [n IH] using lt_wf_ind. intros s ->.
  apply H. intros t Ht. exact (IH _ Ht t eq_refl).
Qed.

Lemma span_le p s : (span p s <= List.length s)%nat.
Proof. induction s as [|c s IH]; cbn; [lia|]. destruct (p c); cbn; lia. Qed.

(** ** [safe_filename] *)

(** Where every character of a class starts a match, and the replacement
    has none, the result has none. *)
Lemma sub_from_clears p r repl k s :
  (forall c s', p c = true -> exists n, match_here r (c :: s') = Some (S n)) ->
  Forall (fun c => p c = false) repl ->
  Forall (fun c => p c = false) (sub_from r repl k s).
Proof.
  intros Hm Hr. revert k. induction s as [|c s IH]; intros k; [constructor|].
  cbn [sub_from]. destruct k as [|k]; [|apply IH].
  destruct (p c) eqn:Ec.
  - destruct (Hm c s Ec) as [n ->]. apply Forall_app; split; [exact Hr | apply IH].
  - destruct (match_here r (c :: s)) as [[|n]|].
    + constructor; [exact Ec | apply IH].
    + apply Forall_app; split; [exact Hr | apply IH].
    + constructor; [exact Ec | apply IH].
Qed.

Lemma reserved_run_matches c s :
  is_reserved c = true ->
  match_here [Rep 1 is_reserved] (c :: s) = Some (S (span is_reserved s)).
Proof. intros H. rewrite match_here_rep_last. cbn [span]. now rewrite H. Qed.

Lemma reserved_run_no_match c s :
  is_reserved c = false -> match_here [Rep 1 is_reserved] (c :: s) = None.
Proof. intros H. rewrite match_here_rep_last. cbn [span]. now rewrite H. Qed.

Lemma sub_runs_no_reserved s :
  no_reserved (re_sub [Rep 1 is_reserved] (py "_") s).
Proof.
  apply sub_from_clears.
  - intros c s' H. eexists. now apply reserved_run_matches.
  - repeat constructor.
Qed.

Lemma sub_each_no_reserved s :
  no_reserved (re_sub [One is_reserved] (py "_") s).
Proof.
  apply sub_from_clears.
  - intros c s' H. exists O. rewrite match_here_one. now rewrite H.
  - repeat constructor.
Qed.

Lemma sub_spaces_no_reserved s :
  no_reserved s -> no_reserved (re_sub [Rep 1 isspace] (py " ") s).
Proof. intros H. apply re_sub_Forall; [exact H | repeat constructor]. Qed.

Lemma untitled_no_reserved : no_reserved (py "untitled").
Proof. repeat constructor. Qed.

Lemma take_nonempty (n : nat) (s : pystr) :
  (0 < n)%nat -> s <> [] -> take n s <> [].
Proof. destruct n, s; cbn; intros; congruence || lia. Qed.

Lemma nonempty_true s : nonempty s = true <-> s <> [].
Proof. destruct s; cbn; split; congruence. Qed.

Lemma nonempty_false s : nonempty s = false <-> s = [].
Proof. destruct s; cbn; split; congruence. Qed.

(** The run-collapsing substitution of [cli_runner.py] does what the
    specification says of it. *)
Lemma runs_resume s :
  runs_to_underscore true s = runs_to_underscore false (drop (span is_reserved s) s).
Proof.
  induction s as [|c s IH]; [reflexivity|].
  cbn [runs_to_underscore span]. destruct (is_reserved c) eqn:E.
  - cbn [drop app]. exact IH.
  - cbn [drop runs_to_underscore]. now rewrite E.
Qed.

Lemma sub_runs_spec s :
  re_sub [Rep 1 is_reserved] (py "_") s = runs_to_underscore false s.
Proof.
  induction s as [s IH] using pystr_len_ind.
  destruct s as [|c s]; [reflexivity|].
  cbn [runs_to_underscore]. destruct (is_reserved c) eqn:E.
  - rewrite (re_sub_step_match _ _ _ _ _ (reserved_run_matches c s E)).
    rewrite runs_resume. f_equal. apply IH.
    rewrite length_drop. cbn. lia.
  - rewrite (re_sub_step_copy _ _ _ _ (reserved_run_no_match c s E)).
    f_equal. apply IH. cbn. lia.
Qed.

Lemma sub_each_spec s :
  re_sub [One is_reserved] (py "_") s = each_to_underscore s.
Proof.
  induction s as [|c s IH]; [reflexivity|].
  rewrite re_sub_cons, match_here_one. cbn [each_to_underscore List.map].
  destruct (is_reserved c); cbn [drop]; [cbn; f_equal; exact IH|].
  f_equal. exact IH.
Qed.



(** C8.  For every title, the name that either [safe_filename] returns has
    none of the nine reserved characters, has at most 150 characters and is
    not empty; it is [untitled] exactly when the substitutions leave
    nothing. *)
Theorem safe_filename_safe (name : pystr) :
  (let f := cli_runner.safe_filename name in
   let t := re_sub [Rep 1 isspace] (py " ")
              (re_sub [Rep 1 is_reserved] (py "_")
                 (strip (re_sub [One is_tnr] (py " ") name))) in
   no_reserved f /\ (List.length f <= 150)%nat /\ f <> []
   /\ ((t = [] /\ f = py "untitled") \/ (t <> [] /\ f = take 150 t)))
  /\
  (let f := toc_playwright.safe_filename name in
   let t := re_sub [Rep 1 isspace] (py " ")
              (re_sub [One is_reserved] (py "_")
                 (strip (re_sub [One is_tnr] (py " ") name))) in
   no_reserved f /\ (List.length f <= 150)%nat /\ f <> []
   /\ ((t = [] /\ f = py "untitled") \/ (t <> [] /\ f = take 150 t))).
Proof.
  split; cbv zeta.
  - unfold cli_runner.safe_filename.
    set (t := re_sub [Rep 1 isspace] _ _).
    assert (Ht : no_reserved t) by apply sub_spaces_no_reserved, sub_runs_no_reserved.
    destruct (nonempty t) eqn:E.
    + apply nonempty_true in E. repeat split.
      * now apply Forall_take.
      * rewrite length_take. lia.
      * apply take_nonempty; [lia | exact E].
      * right. now split.
    + apply nonempty_false in E. repeat split.
      * apply Forall_take, untitled_no_reserved.
      * cbn. lia.
      * discriminate.
      * left. now split.
  - unfold toc_playwright.safe_filename.
    set (t := re_sub [Rep 1 isspace] _ _).
    assert (Ht : no_reserved t) by apply sub_spaces_no_reserved, sub_each_no_reserved.
    destruct (nonempty t) eqn:E.
    + apply nonempty_true in E. repeat split.
      * now apply Forall_take.
      * rewrite length_take. lia.
      * apply take_nonempty; [lia | exact E].
      * right. now split.
    + apply nonempty_false in E. repeat split.
      * apply untitled_no_reserved.
      * cbn. lia.
      * discriminate.
      * left. now split.
Qed.

(** ** Whitespace normalisation *)

Lemma isspace_newline c : is_newline c = true -> isspace c = true.
Proof. unfold is_newline. intros H%N.eqb_eq. now subst. Qed.

Lemma is_newline_eq c : is_newline c = true <-> c = 10.
Proof. apply N.eqb_eq. Qed.

Lemma clean_text_normalizes u text r s :
  clean_text u text r s =
  normalize_whitespace
    (let text :=
       if s then re_sub pat_sponsored [] (re_sub (pat_ads_by u) [] text) else text in
     if r then re_sub pat_url [] text else text).
Proof. reflexivity. Qed.

(** *** Shapes of the three matches *)

Lemma try_down_shift F G lo k :
  (forall j, F (S j) = G j) ->
  try_down F (S lo) (S k) = S <$> try_down G lo k.
Proof.
  intros HFG. induction k as [|k IH].
  - cbn [try_down]. rewrite HFG.
    change (1 <? S lo)%nat with (0 <? lo)%nat.
    destruct (0 <? lo)%nat; [reflexivity|].
    destruct (G O); [reflexivity|]. reflexivity.
  - cbn [try_down] in *. rewrite HFG.
    change (S (S k) <? S lo)%nat with (S k <? lo)%nat.
    destruct (S k <? lo)%nat; [reflexivity|].
    destruct (G (S k)); [reflexivity|]. exact IH.
Qed.

Lemma try_down_shift0 F G k :
  (forall j, F (S j) = G j) ->
  try_down F O (S k) =
  match try_down G O k with
  | Some m => Some (S m)
  | None => F O
  end.
Proof.
  intros HFG. induction k as [|k IH].
  - cbn [try_down]. rewrite HFG. cbn.
    destruct (G O); [reflexivity|]. destruct (F O); [f_equal|reflexivity].
  - cbn [try_down] in *. rewrite HFG. cbn [Nat.ltb Nat.leb] in *.
    destruct (G (S k)); [reflexivity|]. exact IH.
Qed.

Lemma last_newline_backtrack s :
  try_down (fun j => match_here [One is_newline] (drop j s)) O (span isspace s)
  = last_newline s.
Proof.
  induction s as [|c s IH]; [reflexivity|].
  cbn [span last_newline]. destruct (isspace c) eqn:Ec.
  - rewrite (try_down_shift0 _ (fun j => match_here [One is_newline] (drop j s)))
      by reflexivity.
    rewrite IH. destruct (last_newline s); [reflexivity|].
    cbn. now destruct (is_newline c).
  - cbn. destruct (is_newline c) eqn:En; [|reflexivity].
    apply isspace_newline in En. congruence.
Qed.

(** [\s+\n]: from a whitespace character up to the last newline of the
    whitespace that follows it. *)
Lemma match_space_newline c s :
  match_here [Rep 1 isspace; One is_newline] (c :: s) =
  if isspace c then S <$> last_newline s else None.
Proof.
  cbn [match_here span]. destruct (isspace c).
  - rewrite (try_down_shift _ (fun j => match_here [One is_newline] (drop j s)))
      by reflexivity.
    now rewrite last_newline_backtrack.
  - reflexivity.
Qed.

(** [\n\s+]: a newline and all the whitespace after it. *)
Lemma match_newline_space c s :
  match_here [One is_newline; Rep 1 isspace] (c :: s) =
  if is_newline c && negb (span isspace s <? 1)%nat
  then Some (S (span isspace s)) else None.
Proof.
  cbn [match_here]. destruct (is_newline c); [|reflexivity].
  change (try_down _ 1 (span isspace s)) with (match_here [Rep 1 isspace] s).
  rewrite match_here_rep_last. now destruct (_ <? _)%nat.
Qed.

Lemma last_newline_after s n :
  last_newline s = Some n -> last_newline (drop n s) = None.
Proof.
  revert n. induction s as [|c s IH]; intros n; [discriminate|].
  cbn [last_newline]. destruct (isspace c); [|discriminate].
  destruct (last_newline s) as [m|] eqn:E.
  - intros [= <-]. cbn [drop]. now apply IH.
  - destruct (is_newline c); [|discriminate]. intros [= <-]. exact E.
Qed.

Lemma last_newline_le s n : last_newline s = Some n -> (n <= List.length s)%nat.
Proof.
  revert n. induction s as [|c s IH]; intros n; [discriminate|].
  cbn [last_newline]. destruct (isspace c); [|discriminate].
  destruct (last_newline s) as [m|] eqn:E.
  - intros [= <-]. specialize (IH m eq_refl). cbn. lia.
  - destruct (is_newline c); [|discriminate]. intros [= <-]. cbn. lia.
Qed.

(** *** Neighbours *)

Lemma no_pair_cons P a s :
  no_pair P (a :: s) =
  match head s with Some b => negb (P a b) | None => true end && no_pair P s.
Proof. reflexivity. Qed.

Lemma no_pair_drop P k s : no_pair P s = true -> no_pair P (drop k s) = true.
Proof.
  revert s. induction k as [|k IH]; intros [|a s]; try easy.
  rewrite no_pair_cons. intros [_ H]%andb_prop. cbn [drop]. now apply IH.
Qed.

Lemma no_pair_app_l P s t : no_pair P (s ++ t) = true -> no_pair P s = true.
Proof.
  induction s as [|a s IH]; [reflexivity|].
  cbn [app]. rewrite !no_pair_cons. intros [H1 H2]%andb_prop.
  rewrite (IH H2), andb_true_r.
  destruct s as [|b s]; [reflexivity|]. exact H1.
Qed.

Lemma head_drop_span p s x :
  head (drop (span p s) s) = Some x -> p x = false.
Proof.
  induction s as [|c s IH]; [discriminate|].
  cbn [span]. destruct (p c) eqn:E; cbn [drop]; [exact IH|].
  now intros [= <-].
Qed.

(** *** After [\s+\n]: no whitespace before a newline *)

Lemma sub_space_newline_tidy s :
  no_pair space_then_newline (re_sub [Rep 1 isspace; One is_newline] newline s) = true
  /\ (last_newline s = None ->
      head (re_sub [Rep 1 isspace; One is_newline] newline s) <> Some 10).
Proof.
  induction s as [s IH] using pystr_len_ind.
  destruct s as [|c s]; [split; [reflexivity | discriminate]|].
  pose proof (match_space_newline c s) as Hm.
  destruct (isspace c) eqn:Ec; [destruct (last_newline s) as [n|] eqn:El|].
  - (* a match, up to the last newline of the run *)
    rewrite (re_sub_step_match _ _ _ _ _ Hm).
    destruct (IH (drop n s)) as [IH1 IH2].
    { rewrite length_drop. apply last_newline_le in El. cbn. lia. }
    split.
    + change (newline ++ ?t) with (10 :: t). rewrite no_pair_cons, IH1, andb_true_r.
      specialize (IH2 (last_newline_after _ _ El)).
      destruct (head _) as [b|] eqn:Eb; [|reflexivity].
      unfold space_then_newline. cbn [isspace andb].
      destruct (is_newline b) eqn:En; [|reflexivity].
      apply is_newline_eq in En. congruence.
    + cbn [last_newline]. rewrite Ec, El. discriminate.
  - (* whitespace, but no newline follows in the run *)
    rewrite (re_sub_step_copy _ _ _ _ Hm).
    destruct (IH s) as [IH1 IH2]; [cbn; lia|]. specialize (IH2 El).
    split.
    + rewrite no_pair_cons, IH1, andb_true_r.
      destruct (head _) as [b|] eqn:Eb; [|reflexivity].
      unfold space_then_newline.
      destruct (is_newline b) eqn:En; [|now rewrite andb_false_r].
      apply is_newline_eq in En. congruence.
    + cbn [last_newline head]. rewrite Ec, El.
      destruct (is_newline c) eqn:En; [discriminate|].
      intros _ [= ->]. discriminate.
  - (* not whitespace *)
    rewrite (re_sub_step_copy _ _ _ _ Hm).
    destruct (IH s) as [IH1 _]; [cbn; lia|].
    split.
    + rewrite no_pair_cons, IH1, andb_true_r.
      unfold space_then_newline. rewrite Ec.
      now destruct (head _).
    + intros _. cbn [head]. intros [= ->]. discriminate.
Qed.

(** *** After [\n\s+]: no whitespace after a newline either *)

Lemma sub_newline_space_head s :
  head (re_sub [One is_newline; Rep 1 isspace] newline s) = head s.
Proof.
  destruct s as [|c s]; [reflexivity|].
  rewrite re_sub_cons, match_newline_space.
  destruct (is_newline c) eqn:En; [|reflexivity].
  apply is_newline_eq in En. subst c.
  now destruct (negb _).
Qed.

Lemma newline_space_match c s :
  is_newline c && negb (span isspace s <? 1)%nat = true ->
  c = 10 /\ exists x t, s = x :: t /\ isspace x = true.
Proof.
  intros [En Hs]%andb_prop. apply is_newline_eq in En. split; [exact En|].
  destruct s as [|x t]; [discriminate|]. cbn in Hs.
  destruct (isspace x) eqn:E; [eauto | discriminate].
Qed.

Lemma newline_space_no_match c s x :
  is_newline c && negb (span isspace s <? 1)%nat = false ->
  head s = Some x -> newline_then_space c x = false.
Proof.
  unfold newline_then_space. destruct (is_newline c); [|reflexivity].
  destruct s as [|y t]; [discriminate|]. cbn. intros H [= ->].
  now destruct (isspace x).
Qed.

Lemma sub_newline_space_tidy s :
  no_pair newline_then_space (re_sub [One is_newline; Rep 1 isspace] newline s) = true
  /\ (no_pair space_then_newline s = true ->
      no_pair space_then_newline
        (re_sub [One is_newline; Rep 1 isspace] newline s) = true).
Proof.
  induction s as [s IH] using pystr_len_ind.
  destruct s as [|c s]; [split; reflexivity|].
  pose proof (match_newline_space c s) as Hm.
  destruct (is_newline c && negb (span isspace s <? 1)%nat) eqn:E.
  - rewrite (re_sub_step_match _ _ _ _ _ Hm).
    destruct (IH (drop (span isspace s) s)) as [IH1 IH2].
    { rewrite length_drop. cbn. lia. }
    change (newline ++ ?t) with (10 :: t). rewrite !no_pair_cons, IH1.
    rewrite sub_newline_space_head.
    destruct (head (drop _ s)) as [b|] eqn:Eb.
    + apply head_drop_span in Eb. split.
      * unfold newline_then_space. now rewrite Eb.
      * intros [_ H]%andb_prop. rewrite IH2 by now apply no_pair_drop.
        unfold space_then_newline.
        destruct (is_newline b) eqn:En; [|reflexivity].
        apply isspace_newline in En. congruence.
    + split; [reflexivity|]. intros [_ H]%andb_prop.
      now rewrite IH2 by now apply no_pair_drop.
  - rewrite (re_sub_step_copy _ _ _ _ Hm).
    destruct (IH s) as [IH1 IH2]; [cbn; lia|].
    rewrite !no_pair_cons, IH1, sub_newline_space_head.
    destruct (head s) as [b|] eqn:Eb.
    + split.
      * now rewrite (newline_space_no_match _ _ _ E Eb).
      * intros [H1 H2]%andb_prop. now rewrite H1, IH2.
    + split; [reflexivity|]. intros [_ H]%andb_prop. now rewrite IH2.
Qed.

(** *** Fixed points *)

Lemma nowhere_drop r s i : nowhere r s -> match_here r (drop i s) = None.
Proof.
  revert s. induction i as [|i IH]; intros [|c s] [H1 H2]; try exact H1.
  cbn [drop]. now apply IH.
Qed.

Lemma re_sub_nowhere r repl s : nowhere r s -> re_sub r repl s = s.
Proof. intros H. apply re_sub_no_match. intros i. now apply nowhere_drop. Qed.

Lemma tidy_last_newline c s :
  no_pair space_then_newline (c :: s) = true -> isspace c = true ->
  last_newline s = None.
Proof.
  revert c. induction s as [|b s IH]; intros c; [reflexivity|].
  rewrite no_pair_cons. cbn [head]. intros [H1 H2]%andb_prop Hc.
  unfold space_then_newline in H1. rewrite Hc in H1. cbn in H1.
  cbn [last_newline]. destruct (isspace b) eqn:Eb; [|reflexivity].
  rewrite (IH b H2 Eb). now destruct (is_newline b).
Qed.

Lemma tidy_no_space_newline s :
  no_pair space_then_newline s = true ->
  nowhere [Rep 1 isspace; One is_newline] s.
Proof.
  induction s as [|c s IH]; intros H; [now split|].
  split.
  - rewrite match_space_newline. destruct (isspace c) eqn:E; [|reflexivity].
    now rewrite (tidy_last_newline c s H E).
  - apply IH. rewrite no_pair_cons in H. now apply andb_prop in H.
Qed.

Lemma tidy_no_newline_space s :
  no_pair newline_then_space s = true ->
  nowhere [One is_newline; Rep 1 isspace] s.
Proof.
  induction s as [|c s IH]; intros H; [now split|].
  rewrite no_pair_cons in H. apply andb_prop in H as [H1 H2].
  split; [|now apply IH].
  rewrite match_newline_space.
  destruct (is_newline c && _) eqn:E; [|reflexivity].
  apply newline_space_match in E as (-> & x & t & -> & Hx).
  cbn in H1. unfold newline_then_space in H1. now rewrite Hx in H1.
Qed.

Lemma tidy_no_newlines s :
  no_pair space_then_newline s = true -> nowhere [Rep 3 is_newline] s.
Proof.
  induction s as [|c s IH]; intros H; [now split|].
  rewrite no_pair_cons in H. apply andb_prop in H as [H1 H2].
  split; [|now apply IH].
  rewrite match_here_rep_last. cbn [span].
  destruct (is_newline c) eqn:Ec; [|reflexivity].
  destruct s as [|b s]; [reflexivity|]. cbn [span head] in *.
  destruct (is_newline b) eqn:Eb; [|reflexivity].
  unfold space_then_newline in H1. now rewrite Eb, (isspace_newline _ Ec) in H1.
Qed.

(** *** [strip] *)

Lemma lstrip_by_fixed p s :
  (forall x, head s = Some x -> p x = false) -> lstrip_by p s = s.
Proof.
  destruct s as [|c s]; [reflexivity|]. intros H. cbn.
  now rewrite (H c eq_refl).
Qed.

Lemma lstrip_by_head p s x : head (lstrip_by p s) = Some x -> p x = false.
Proof.
  induction s as [|c s IH]; [discriminate|]. cbn.
  destruct (p c) eqn:E; [exact IH|]. now intros [= <-].
Qed.

Lemma lstrip_by_suffix p s : exists k, lstrip_by p s = drop k s.
Proof.
  induction s as [|c s [k IH]]; [now exists O|]. cbn.
  destruct (p c); [exists (S k); exact IH | now exists O].
Qed.

Lemma rstrip_by_cons p c s :
  rstrip_by p (c :: s) =
  if nonempty (rstrip_by p s) then c :: rstrip_by p s
  else if p c then [] else [c].
Proof. cbn. now destruct (rstrip_by p s). Qed.

Lemma rstrip_by_prefix p s :
  exists w, s = rstrip_by p s ++ w /\ Forall (fun c => p c = true) w.
Proof.
  induction s as [|c s (w & Hw & Hp)]; [exists []; now split|].
  rewrite rstrip_by_cons. destruct (nonempty (rstrip_by p s)) eqn:E.
  - exists w. split; [cbn; now f_equal | exact Hp].
  - apply nonempty_false in E. rewrite E in Hw. cbn in Hw. subst w.
    destruct (p c) eqn:Ec.
    + exists (c :: s). split; [reflexivity | now constructor].
    + exists s. split; [reflexivity | exact Hp].
Qed.

Lemma rstrip_by_idem p s : rstrip_by p (rstrip_by p s) = rstrip_by p s.
Proof.
  induction s as [|c s IH]; [reflexivity|].
  rewrite rstrip_by_cons. destruct (nonempty (rstrip_by p s)) eqn:E.
  - rewrite rstrip_by_cons, IH, E. reflexivity.
  - destruct (p c) eqn:Ec; [reflexivity|]. cbn. now rewrite Ec.
Qed.

Lemma rstrip_by_head p s x :
  head s = Some x -> p x = false -> head (rstrip_by p s) = Some x.
Proof.
  destruct s as [|c s]; [discriminate|]. intros [= ->] Hx.
  rewrite rstrip_by_cons. destruct (nonempty _); [reflexivity|]. now rewrite Hx.
Qed.

Lemma strip_idem s : strip (strip s) = strip s.
Proof.
  unfold strip. set (t := lstrip_by isspace s).
  rewrite (lstrip_by_fixed isspace (rstrip_by isspace t)).
  - apply rstrip_by_idem.
  - intros x Hx. destruct t as [|c t'] eqn:Et; [discriminate|].
    assert (Hc : isspace c = false).
    { apply (lstrip_by_head isspace s). fold t. now rewrite Et. }
    rewrite (rstrip_by_head isspace (c :: t') c eq_refl Hc) in Hx.
    now injection Hx as <-.
Qed.

Lemma strip_no_pair P s : no_pair P s = true -> no_pair P (strip s) = true.
Proof.
  intros H. unfold strip.
  destruct (lstrip_by_suffix isspace s) as [k ->].
  destruct (rstrip_by_prefix isspace (drop k s)) as (w & Hw & _).
  apply (no_pair_app_l P _ w). rewrite <- Hw. now apply no_pair_drop.
Qed.

(** *** The normal form *)

Lemma normalize_whitespace_tidy s : tidy (normalize_whitespace s).
Proof.
  unfold normalize_whitespace, tidy.
  set (t1 := re_sub [Rep 1 isspace; One is_newline] newline s).
  set (t2 := re_sub [One is_newline; Rep 1 isspace] newline t1).
  assert (H1 : no_pair space_then_newline t1 = true) by apply sub_space_newline_tidy.
  destruct (sub_newline_space_tidy t1) as [H2 H3]. specialize (H3 H1). fold t2 in H2, H3.
  rewrite (re_sub_nowhere _ _ t2 (tidy_no_newlines _ H3)).
  repeat split; [now apply strip_no_pair .. | apply strip_idem].
Qed.

Lemma normalize_whitespace_fixed s : tidy s -> normalize_whitespace s = s.
Proof.
  intros (H1 & H2 & H3). unfold normalize_whitespace.
  rewrite (re_sub_nowhere _ _ s (tidy_no_space_newline _ H1)).
  rewrite (re_sub_nowhere _ _ s (tidy_no_newline_space _ H2)).
  now rewrite (re_sub_nowhere _ _ s (tidy_no_newlines _ H1)).
Qed.

Lemma normalize_whitespace_idem s :
  normalize_whitespace (normalize_whitespace s) = normalize_whitespace s.
Proof. apply normalize_whitespace_fixed, normalize_whitespace_tidy. Qed.

(** ** Removal of raw URLs *)

Lemma span_app_blind p s rest :
  (forall x, head rest = Some x -> p x = false) ->
  span p (s ++ rest) = span p s.
Proof.
  intros H. induction s as [|c s IH]; cbn.
  - destruct rest as [|x rest]; [reflexivity|]. cbn. now rewrite (H x eq_refl).
  - now rewrite IH.
Qed.

Lemma span_app_ge p s t : (span p s <= span p (s ++ t))%nat.
Proof. induction s as [|c s IH]; cbn; [lia|]. destruct (p c); lia. Qed.

(** A pattern whose atoms take no whitespace never looks past the first
    whitespace character. *)
Lemma match_here_blind r s rest :
  Forall (fun a => forall c, atom_class a c = true -> isspace c = false) r ->
  (forall x, head rest = Some x -> isspace x = true) ->
  match_here r (s ++ rest) = match_here r s.
Proof.
  intros Hr Hrest. revert s. induction Hr as [|a r Ha Hr IH]; intros s; [reflexivity|].
  assert (Hhd : forall x, head rest = Some x -> atom_class a x = false).
  { intros x Hx. destruct (atom_class a x) eqn:E; [|reflexivity].
    apply Ha in E. rewrite (Hrest x Hx) in E. discriminate. }
  destruct a as [p|p|lo p]; cbn [atom_class] in *.
  - destruct s as [|c s]; cbn [app match_here].
    + destruct rest as [|x rest]; [reflexivity|]. now rewrite (Hhd x eq_refl).
    + now rewrite IH.
  - destruct s as [|c s]; cbn [app match_here].
    + specialize (IH []). cbn [app] in IH.
      destruct rest as [|x rest]; [reflexivity|]. now rewrite (Hhd x eq_refl), IH.
    + pose proof (IH (c :: s)) as IH2. cbn [app] in IH2. now rewrite IH, IH2.
  - cbn [match_here]. rewrite (span_app_blind p s rest Hhd).
    apply try_down_ext. intros j Hj.
    rewrite drop_app_le by (pose proof (span_le p s); lia). apply IH.
Qed.

Lemma ends_greedy_atoms r :
  ends_greedy r ->
  Forall (fun a => forall c, atom_class a c = true -> isspace c = false) r.
Proof.
  induction r as [|a r IH]; [constructor|].
  destruct a as [p|p|lo p]; cbn [ends_greedy].
  - intros [Hp Hr]. constructor; [exact Hp | now apply IH].
  - intros [Hp Hr]. constructor; [exact Hp | now apply IH].
  - destruct lo as [|lo]; [easy|]. destruct r; [|easy]. intros ->.
    constructor; [|constructor]. cbn. unfold nonspace. intros c.
    now destruct (isspace c).
Qed.

(** Such a pattern, when it matches, takes the whole run of characters up
    to the next whitespace, and at least one. *)
Lemma ends_greedy_length r s n :
  ends_greedy r -> match_here r s = Some n ->
  n = span nonspace s /\ (0 < n)%nat.
Proof.
  revert s n. induction r as [|a r IH]; intros s n; [easy|].
  destruct a as [p|p|lo p]; cbn [ends_greedy].
  - intros [Hp Hr]. destruct s as [|c s]; [discriminate|]. cbn [match_here].
    destruct (p c) eqn:Ec; [|discriminate].
    destruct (match_here r s) as [m|] eqn:Em; [|discriminate].
    intros [= <-]. destruct (IH s m Hr Em) as [-> _].
    cbn [span]. unfold nonspace at 2. rewrite (Hp c Ec). cbn. split; lia.
  - intros [Hp Hr]. destruct s as [|c s]; cbn [match_here].
    + now apply IH.
    + destruct (p c) eqn:Ec; [|now apply IH].
      destruct (match_here r s) as [m|] eqn:Em; [|now apply IH].
      intros [= <-]. destruct (IH s m Hr Em) as [-> _].
      cbn [span]. unfold nonspace at 2. rewrite (Hp c Ec). cbn. split; lia.
  - destruct lo as [|lo]; [easy|]. destruct r; [|easy]. intros ->.
    rewrite match_here_rep_last. destruct (Nat.ltb_spec (span nonspace s) (S lo));
      [discriminate|]. intros [= <-]. split; lia.
Qed.

(** A match stays a match when the text goes on. *)
Lemma ends_greedy_extend r s t :
  ends_greedy r -> match_here r s <> None -> match_here r (s ++ t) <> None.
Proof.
  revert s. induction r as [|a r IH]; intros s; [easy|].
  destruct a as [p|p|lo p]; cbn [ends_greedy].
  - intros [Hp Hr]. destruct s as [|c s]; [easy|]. cbn [app match_here].
    destruct (p c); [|easy].
    specialize (IH s Hr).
    destruct (match_here r s); [|easy]. intros _.
    destruct (match_here r (s ++ t)); [easy|]. now exfalso; apply IH.
  - intros [Hp Hr]. destruct s as [|c s]; cbn [app match_here].
    + intros H. pose proof (IH [] Hr H) as H'. cbn [app] in H'.
      destruct t as [|x t]; [exact H'|]. cbn [match_here].
      destruct (p x); [|exact H']. now destruct (match_here r t).
    + pose proof (IH s Hr) as IH1. pose proof (IH (c :: s) Hr) as IH2.
      cbn [app] in IH2.
      destruct (p c); [|exact IH2].
      destruct (match_here r (s ++ t)); [easy|].
      destruct (match_here r s); [now exfalso; apply IH1 | exact IH2].
  - destruct lo as [|lo]; [easy|]. destruct r; [|easy]. intros ->.
    rewrite !match_here_rep_last. pose proof (span_app_ge nonspace s t).
    destruct (Nat.ltb_spec (span nonspace s) (S lo)); [easy|].
    destruct (Nat.ltb_spec (span nonspace (s ++ t)) (S lo)); [lia | easy].
Qed.

Lemma ends_greedy_space r c s :
  ends_greedy r -> isspace c = true -> match_here r (c :: s) = None.
Proof.
  intros Hr Hc. destruct (match_here r (c :: s)) as [n|] eqn:E; [|reflexivity].
  destruct (ends_greedy_length _ _ _ Hr E) as [-> H]. cbn in H.
  unfold nonspace in H. rewrite Hc in H. cbn in H. lia.
Qed.

Lemma ends_greedy_nil r : ends_greedy r -> match_here r [] = None.
Proof.
  intros Hr. destruct (match_here r []) as [n|] eqn:E; [|reflexivity].
  destruct (ends_greedy_length _ _ _ Hr E) as [-> H]. cbn in H. lia.
Qed.

(** Whitespace in front changes nothing to what follows. *)
Lemma nowhere_spaces r w s :
  ends_greedy r -> Forall (fun c => isspace c = true) w ->
  nowhere r s -> nowhere r (w ++ s).
Proof.
  intros Hr Hw Hs. induction Hw as [|c w Hc Hw IH]; [exact Hs|].
  split; [now apply ends_greedy_space | exact IH].
Qed.

Lemma nowhere_tail r c s : nowhere r (c :: s) -> nowhere r s.
Proof. now intros [_ H]. Qed.

Lemma nowhere_suffix r k s : nowhere r s -> nowhere r (drop k s).
Proof.
  revert s. induction k as [|k IH]; intros [|c s] H; try exact H.
  cbn [drop]. apply IH. now apply nowhere_tail in H.
Qed.

(** A text split at its first whitespace character. *)
Lemma span_split s :
  s = take (span nonspace s) s ++ drop (span nonspace s) s
  /\ forall x, head (drop (span nonspace s) s) = Some x -> isspace x = true.
Proof.
  split; [now rewrite take_drop|].
  intros x Hx. apply head_drop_span in Hx. unfold nonspace in Hx.
  now destruct (isspace x).
Qed.

(** After the removal, the pattern matches nowhere; and what is left starts
    with a piece of the text as it was, up to whitespace or the end. *)
Lemma sub_greedy_shape r s :
  ends_greedy r ->
  nowhere r (re_sub r [] s)
  /\ exists p p2 q,
       s = p ++ p2 /\ re_sub r [] s = p ++ q
       /\ forall x, head q = Some x -> isspace x = true.
Proof.
  intros Hr. induction s as [s IH] using pystr_len_ind.
  destruct s as [|c s].
  - split; [split; [now apply ends_greedy_nil | exact I]|].
    exists [], [], []. repeat split. discriminate.
  - destruct (match_here r (c :: s)) as [m|] eqn:Em.
    + destruct (ends_greedy_length _ _ _ Hr Em) as [-> Hpos].
      destruct (span nonspace (c :: s)) as [|n] eqn:En; [lia|].
      rewrite (re_sub_step_match _ _ _ _ _ Em). cbn [app].
      destruct (IH (drop n s)) as [IH1 _]; [rewrite length_drop; cbn; lia|].
      split; [exact IH1|].
      exists [], (c :: s), (re_sub r [] (drop n s)). repeat split.
      intros x Hx.
      assert (Hd : forall y, head (drop n s) = Some y -> isspace y = true).
      { intros y Hy. change (drop n s) with (drop (S n) (c :: s)) in Hy.
        rewrite <- En in Hy. now apply span_split in Hy. }
      destruct (drop n s) as [|y t]; [discriminate|].
      specialize (Hd y eq_refl).
      rewrite (re_sub_step_copy _ _ _ _ (ends_greedy_space _ _ _ Hr Hd)) in Hx.
      now injection Hx as <-.
    + rewrite (re_sub_step_copy _ _ _ _ Em).
      destruct (IH s) as (IH1 & p & p2 & q & Hs & Hsub & Hq); [cbn; lia|].
      split.
      * split; [|exact IH1]. rewrite Hsub.
        change (c :: p ++ q) with ((c :: p) ++ q).
        rewrite (match_here_blind _ _ _ (ends_greedy_atoms _ Hr) Hq).
        destruct (match_here r (c :: p)) eqn:Ep; [|reflexivity].
        exfalso. apply (ends_greedy_extend r (c :: p) p2 Hr); [now rewrite Ep|].
        cbn [app]. now rewrite <- Hs.
      * exists (c :: p), p2, q. repeat split; [now rewrite Hs | now rewrite Hsub | exact Hq].
Qed.

(** A substitution that only touches whitespace, and puts whitespace back,
    leaves the text up to the first whitespace as it was. *)
Lemma sub_spaces_prefix rw repl s :
  (forall c t n, match_here rw (c :: t) = Some (S n) -> isspace c = true) ->
  Forall (fun c => isspace c = true) repl -> repl <> [] ->
  exists q, re_sub rw repl s = take (span nonspace s) s ++ q
            /\ forall x, head q = Some x -> isspace x = true.
Proof.
  intros Hrw Hrepl Hne. induction s as [|c s (q & IH & Hq)].
  - exists []. split; [reflexivity | discriminate].
  - cbn [span]. unfold nonspace at 1. destruct (isspace c) eqn:Ec; cbn [negb].
    + exists (re_sub rw repl (c :: s)). split; [reflexivity|].
      rewrite re_sub_cons. intros x.
      destruct (match_here rw (c :: s)) as [[|n]|]; try now intros [= <-].
      destruct repl as [|y repl]; [easy|]. cbn. intros [= <-].
      now inversion Hrepl.
    + exists q. split; [|exact Hq]. rewrite re_sub_cons.
      destruct (match_here rw (c :: s)) as [[|n]|] eqn:Em; cbn [take app];
        try now rewrite IH.
      apply Hrw in Em. congruence.
Qed.

Lemma sub_spaces_keeps_nowhere r rw repl s :
  ends_greedy r ->
  (forall c t n, match_here rw (c :: t) = Some (S n) -> isspace c = true) ->
  Forall (fun c => isspace c = true) repl -> repl <> [] ->
  nowhere r s -> nowhere r (re_sub rw repl s).
Proof.
  intros Hr Hrw Hrepl Hne. induction s as [s IH] using pystr_len_ind.
  destruct s as [|c s]; [easy|]. intros [Hc Hs].
  rewrite re_sub_cons.
  destruct (match_here rw (c :: s)) as [[|n]|] eqn:Em.
  2:{ apply nowhere_spaces; [exact Hr | exact Hrepl|].
      apply IH; [rewrite length_drop; cbn; lia | now apply nowhere_suffix]. }
  all: split; [|apply IH; [cbn; lia | exact Hs]].
  all: destruct (sub_spaces_prefix rw repl s Hrw Hrepl Hne) as (q & -> & Hq).
  all: change (c :: ?a ++ q) with ((c :: a) ++ q).
  all: rewrite (match_here_blind _ _ _ (ends_greedy_atoms _ Hr) Hq).
  all: destruct (span_split s) as [Hsplit Hd].
  all: rewrite <- (match_here_blind r _ (drop (span nonspace s) s)
                     (ends_greedy_atoms _ Hr) Hd).
  all: cbn [app]; now rewrite <- Hsplit.
Qed.

Lemma strip_keeps_nowhere r s :
  ends_greedy r -> nowhere r s -> nowhere r (strip s).
Proof.
  intros Hr Hs. unfold strip.
  destruct (lstrip_by_suffix isspace s) as [k ->].
  apply (nowhere_suffix r k) in Hs.
  destruct (rstrip_by_prefix isspace (drop k s)) as (w & Hw & Hsp).
  rewrite Hw in Hs. revert Hs. generalize (rstrip_by isspace (drop k s)).
  intros t. induction t as [|c t IH].
  - intros _. split; [now apply ends_greedy_nil | exact I].
  - cbn [app]. intros [H1 H2]. split; [|now apply IH].
    rewrite <- (match_here_blind r (c :: t) w (ends_greedy_atoms _ Hr)); [exact H1|].
    intros x Hx. destruct w as [|y w]; [discriminate|]. injection Hx as <-.
    now inversion Hsp.
Qed.

Lemma space_newline_starts c t n :
  match_here [Rep 1 isspace; One is_newline] (c :: t) = Some (S n) -> isspace c = true.
Proof. rewrite match_space_newline. now destruct (isspace c). Qed.

Lemma newline_space_starts c t n :
  match_here [One is_newline; Rep 1 isspace] (c :: t) = Some (S n) -> isspace c = true.
Proof.
  rewrite match_newline_space. destruct (is_newline c) eqn:E; [|discriminate].
  intros _. now apply isspace_newline.
Qed.

Lemma newlines_start c t n :
  match_here [Rep 3 is_newline] (c :: t) = Some (S n) -> isspace c = true.
Proof.
  rewrite match_here_rep_last. cbn [span].
  destruct (is_newline c) eqn:E; [|discriminate]. intros _. now apply isspace_newline.
Qed.

Lemma normalize_whitespace_keeps_nowhere r s :
  ends_greedy r -> nowhere r s -> nowhere r (normalize_whitespace s).
Proof.
  intros Hr Hs. unfold normalize_whitespace.
  apply strip_keeps_nowhere; [exact Hr|].
  apply sub_spaces_keeps_nowhere;
    [exact Hr | exact newlines_start | repeat constructor | discriminate |].
  apply sub_spaces_keeps_nowhere;
    [exact Hr | exact newline_space_starts | repeat constructor | discriminate |].
  apply sub_spaces_keeps_nowhere;
    [exact Hr | exact space_newline_starts | repeat constructor | discriminate |].
  exact Hs.
Qed.

Lemma pat_url_ends_greedy : ends_greedy pat_url.
Proof.
  unfold pat_url, lits, lit. cbn.
  repeat split; intros c Hc%N.eqb_eq; now subst c.
Qed.

(** ** [clean_text] *)

(** With [remove_links], no raw URL is left in the result, whatever the
    other flag. *)
Lemma clean_text_no_url u text s : nowhere pat_url (clean_text u text true s).
Proof.
  rewrite clean_text_normalizes. cbv zeta.
  apply normalize_whitespace_keeps_nowhere; [exact pat_url_ends_greedy|].
  apply sub_greedy_shape, pat_url_ends_greedy.
Qed.

(** C3, as the code has it.  Without [strip_ads], [clean_text] is
    idempotent, for both values of [remove_links]. *)
Theorem clean_text_idempotent_without_ads u text r :
  clean_text u (clean_text u text r false) r false = clean_text u text r false.
Proof.
  destruct r.
  - pose proof (clean_text_no_url u text false) as H.
    rewrite (clean_text_normalizes u (clean_text u text true false)). cbv zeta.
    rewrite (re_sub_nowhere _ _ _ H).
    rewrite clean_text_normalizes. apply normalize_whitespace_idem.
  - rewrite !clean_text_normalizes. apply normalize_whitespace_idem.
Qed.

(** The example of the specification. *)
Lemma clean_text_example u :
  clean_text u (py "Ads by Acme" ++ [10; 10; 10] ++ py "Hello https://x.test/y  world")
             true true
  = py "Hello   world".
Proof. vm_compute. reflexivity. Qed.

(** The text on which C3 fails: the first pass removes [Ads by x] from the
    middle, and what it leaves reads [Ads by y], which a second pass
    removes. *)
Lemma clean_text_ads_twice u r :
  clean_text u (py "AdsAds by x by y") r true = py "Ads by y"
  /\ clean_text u (py "Ads by y") r true = [].
Proof. destruct r; split; vm_compute; reflexivity. Qed.

(** C3 fails with [strip_ads]. *)
Lemma clean_text_not_idempotent :
  ~ (forall u text r s,
       clean_text u (clean_text u text r s) r s = clean_text u text r s).
Proof.
  intros H. specialize (H (fun _ => false) (py "AdsAds by x by y") true true).
  destruct (clean_text_ads_twice (fun _ => false) true) as [H1 H2].
  rewrite H1, H2 in H. discriminate H.
Qed.

(** ** The chapter loop of [cli_runner.py] *)

Section CliLoop.

Variable uni_alnum : N -> bool.
Variable args : cli_runner.Args.
Variable d : driver.
Variable rnd : nat -> Q.

Let attempt_once := cli_runner.attempt_once uni_alnum args d.
Let attempts := cli_runner.attempts uni_alnum args d rnd.
Let chapter := cli_runner.chapter uni_alnum args d rnd.
Let chapters := cli_runner.chapters uni_alnum args d rnd.
Let pace := cli_runner.sleep_polite rnd (cli_runner.min_d args) (cli_runner.max_d args).



(** The pacing writes nothing, navigates nowhere and draws once. *)
Lemma pace_only_events w :
  exists evs,
    only_events w (pace w) evs /\ gotos evs = []
    /\ navs (pace w) = navs w /\ draws (pace w) = S (draws w).
Proof.
  unfold pace, cli_runner.sleep_polite.
  destruct (Qeq_bool _ 0).
  - exists []. repeat split. cbn. now rewrite app_nil_r.
  - eexists [_]. repeat split.
Qed.


(** An attempt ends in a handler exactly when the driver raised. *)
Lemma attempt_once_result i url w :
  (attempt_once i url w).2
  = raised (cli_runner.wait_after_load args) (chapter_page d (navs w) url).
Proof.
  unfold raised, attempt_once, cli_runner.attempt_once.
  destruct (goto_raises _); [reflexivity|].
  destruct (Z.eqb_spec (cli_runner.wait_after_load args) 0).
  - destruct (title_inner_text _); [reflexivity|].
    now destruct (content_inner_text _).
  - destruct (wait_raises _); [reflexivity|].
    destruct (title_inner_text _); [reflexivity|].
    now destruct (content_inner_text _).
Qed.

(** The [while True] loop ends: with [attempt] at [a], one iteration more
    than the retries left is enough fuel. *)
Lemma attempts_terminate fuel i url a w :
  (Z.to_nat (cli_runner.retries args - a) < fuel)%nat ->
  exists w' o, attempts fuel i url a w = Some (w', o).
Proof.
  revert a w. induction fuel as [|fuel IH]; intros a w Hf; [lia|].
  cbn [attempts cli_runner.attempts]. fold attempts. fold attempt_once.
  destruct (attempt_once i url w) as [w1 [e|]]; [|eauto].
  destruct (Z.leb_spec (a + 1) (cli_runner.retries args)); [|eauto].
  apply IH. lia.
Qed.

(** More fuel changes nothing to the result. *)
Lemma attempts_fuel fuel fuel' i url a w r :
  (fuel <= fuel')%nat ->
  attempts fuel i url a w = Some r -> attempts fuel' i url a w = Some r.
Proof.
  revert fuel' a w. induction fuel as [|fuel IH]; intros [|fuel'] a w Hle;
    try discriminate; try lia.
  cbn [attempts cli_runner.attempts]. fold attempts. fold attempt_once.
  destruct (attempt_once i url w) as [w1 [e|]]; [|easy].
  destruct (_ <=? _)%Z; [|easy]. apply IH. lia.
Qed.



Lemma gotos_app t1 t2 : gotos (t1 ++ t2) = gotos t1 ++ gotos t2.
Proof. apply omap_app. Qed.



End CliLoop.


(** ** Pacing *)

Section CliPacing.

Variable uni_alnum : N -> bool.
Variable args : cli_runner.Args.
Variable d : driver.
Variable rnd : nat -> Q.

(** The loop of a chapter is left right after the line that tells its
    outcome. *)
Lemma attempts_end_with_outcome fuel i url a w w1 o :
  cli_runner.attempts uni_alnum args d rnd fuel i url a w = Some (w1, o) ->
  exists t m,
    trace w1 = t ++ [Print m]
    /\ match o with
       | cli_runner.Succeeded _ => exists p, m = MsgSaved p
       | cli_runner.GaveUp _ e => m = MsgGivingUp e url
       end.
Proof.
  revert a w. induction fuel as [|fuel IH]; intros a w; [discriminate|].
  cbn [cli_runner.attempts].
  destruct (cli_runner.attempt_once uni_alnum args d i url w) as [w2 [e|]] eqn:E.
  - destruct (_ <=? _)%Z; [apply IH|].
    intros [= <- <-]. now eexists _, _.
  - intros [= <- <-]. revert E. unfold cli_runner.attempt_once.
    destruct (goto_raises _); [discriminate|].
    destruct (_ =? _)%Z.
    + destruct (title_inner_text _); [discriminate|].
      destruct (content_inner_text _); [discriminate|].
      intros [= <-]. eexists _, _. split; [reflexivity | eauto].
    + destruct (wait_raises _); [discriminate|].
      destruct (title_inner_text _); [discriminate|].
      destruct (content_inner_text _); [discriminate|].
      intros [= <-]. eexists _, _. split; [reflexivity | eauto].
Qed.

(** In [cli_runner.py] every chapter is followed by one call of
    [sleep_polite], whether it was saved or given up. *)
Lemma cli_paces_every_chapter i url w w' o :
  cli_runner.chapter uni_alnum args d rnd i url w = Some (w', o) ->
  exists w1 t m,
    trace w1 = t ++ [Print m]
    /\ match o with
       | cli_runner.Succeeded _ => exists p, m = MsgSaved p
       | cli_runner.GaveUp _ e => m = MsgGivingUp e url
       end
    /\ w' = cli_runner.sleep_polite rnd (cli_runner.min_d args) (cli_runner.max_d args) w1.
Proof.
  unfold cli_runner.chapter.
  destruct (cli_runner.attempts _ _ _ _ _ _ _ _ _) as [[w1 o1]|] eqn:E; [|discriminate].
  intros [= <- <-].
  destruct (attempts_end_with_outcome _ _ _ _ _ _ _ E) as (t & m & Ht & Hm).
  now exists w1, t, m.
Qed.

End CliPacing.

(** C5 on [toc_playwright.py]: the first chapter of [first_times_out]
    fails, and the navigation to the second one follows with no wait in
    between; the only pacing wait (1000 ms) is the one after the chapter
    that was saved. *)
Theorem gui_failed_chapter_is_not_paced :
  let run :=
    toc_playwright._run_extraction ascii_only accept accept (py "downloads")
      example_form first_times_out always_half true (fun _ => true) blank in
  run.2 = [toc_playwright.Skipped PWTimeout; toc_playwright.Saved]
  /\ actions (trace run.1)
     = [Goto (py "https://ex.test/c/1");
        Goto (py "https://ex.test/c/2"); WaitForTimeout 500; WaitForTimeout 1000].
Proof. split; vm_compute; reflexivity. Qed.

(** The same chapters in [cli_runner.py], without retries: a pause follows
    the chapter that failed as well. *)
Lemma cli_failed_chapter_is_paced :
  let args := cli_runner.mkArgs (py "https://ex.test/book/toc") 20 (py "out")
                                false false false 1 (1 # 2) 0 0 in
  option_map (fun r => (List.map Qred (sleeps (trace r.1)), gotos (trace r.1), r.2))
    (cli_runner.main ascii_only accept accept args first_times_out always_half ∅)
  = Some ([1%Q; 1%Q],
          [py "https://ex.test/book/toc"; py "https://ex.test/c/1";
           py "https://ex.test/c/2"],
          cli_runner.Done [cli_runner.GaveUp 1 PWTimeout; cli_runner.Succeeded 1]).
Proof. vm_compute. reflexivity. Qed.

(** ** What is written for a chapter *)

(** Closes goals that compare a world with the one it came from. *)
Ltac frame := repeat split; cbn; rewrite <- ?app_assoc; reflexivity.


Section Writing.

Variable uni_alnum : N -> bool.
Variable args : cli_runner.Args.
Variable form : toc_playwright.Form.
Variable DEFAULT_OUTPUT_DIR : pystr.
Variable d : driver.
Variable rnd : nat -> Q.







End Writing.




(** ** Delays *)








(** The inverted delays of the specification in floating point: the delay
    is 1.0 for every draw that is a number. *)
Lemma inverted_delays_binary64 r :
  binary64.finite r ->
  let min_d := binary64.py_max binary64.zero binary64.one in
  let max_d := binary64.py_max min_d binary64.half in
  binary64.py_max binary64.zero (binary64.uniform min_d max_d r) = binary64.one.
Proof.
  intros H. cbv zeta.
  change (binary64.py_max binary64.zero binary64.one) with binary64.one.
  change (binary64.py_max binary64.one binary64.half) with binary64.one.
  unfold binary64.uniform.
  change (binary64.sub binary64.one binary64.one) with (S754_zero false).
  destruct r as [s| | |s m e]; try easy; destruct s; reflexivity.
Qed.



(** ** Link resolution *)










(** ** Validation of the TOC URL *)

Section CliTrace.

Variable uni_alnum : N -> bool.
Variable bracketed_ok : pystr -> bool.
Variable nfkc_ok : pystr -> bool.
Variable args : cli_runner.Args.
Variable d : driver.
Variable rnd : nat -> Q.








End CliTrace.




(** The check of [cli_runner.py] is on the netloc, not on the host: a port
    alone is enough. *)
Lemma cli_accepts_port_without_host :
  cli_runner.is_valid_url accept accept (py "http://:80/toc") = true
  /\ exists p, urlparse accept accept (py "http://:80/toc") [] = Some p
               /\ netloc p = py ":80".
Proof.
  split; [vm_compute; reflexivity|].
  eexists; split; [vm_compute; reflexivity | reflexivity].
Qed.

(** * Further properties of the two programs *)

(** ** Accounting of the chapter loop of [cli_runner.py] *)


Section CliAccounting.

Variable uni_alnum : N -> bool.
Variable args : cli_runner.Args.
Variable d : driver.
Variable rnd : nat -> Q.

Let attempt_once := cli_runner.attempt_once uni_alnum args d.
Let attempts := cli_runner.attempts uni_alnum args d rnd.
Let chapter := cli_runner.chapter uni_alnum args d rnd.
Let chapters := cli_runner.chapters uni_alnum args d rnd.
Let pace := cli_runner.sleep_polite rnd (cli_runner.min_d args) (cli_runner.max_d args).
Let include := cli_runner.include_links args.
Let out := cli_runner.out args.
Let retries := cli_runner.retries args.

(** What one attempt does to the world: one navigation, no draw, and
    either nothing written (an exception) or the chapter written out. *)
Lemma attempt_once_effect i url w :
  exists evs,
    trace (attempt_once i url w).1 = trace w ++ evs
    /\ gotos evs = [url]
    /\ navs (attempt_once i url w).1 = S (navs w)
    /\ draws (attempt_once i url w).1 = draws w
    /\ match (attempt_once i url w).2 with
       | Some _ =>
           files (attempt_once i url w).1 = files w
           /\ combined (attempt_once i url w).1 = combined w
       | None =>
           exists title text,
             files (attempt_once i url w).1
             = <[chapter_path out i title
                 := chapter_block include title url text ++ newline]> (files w)
             /\ combined (attempt_once i url w).1
                = combined w ++ combined_block include title url text
       end.
Proof.
  unfold attempt_once, cli_runner.attempt_once.
  destruct (goto_raises _); [eexists [_]; frame|].
  destruct (_ =? _)%Z.
  - destruct (title_inner_text _); [eexists [_]; frame|].
    destruct (content_inner_text _); [eexists [_]; frame|].
    eexists [_; _]. cbn. rewrite <- !app_assoc. repeat split. now eexists _, _.
  - destruct (wait_raises _); [eexists [_; _]; frame|].
    destruct (title_inner_text _); [eexists [_; _]; frame|].
    destruct (content_inner_text _); [eexists [_; _]; frame|].
    eexists [_; _; _]. cbn. rewrite <- !app_assoc. repeat split. now eexists _, _.
Qed.

Lemma pace_effect w :
  exists evs,
    trace (pace w) = trace w ++ evs /\ gotos evs = []
    /\ navs (pace w) = navs w /\ draws (pace w) = S (draws w)
    /\ files (pace w) = files w /\ combined (pace w) = combined w.
Proof.
  destruct (pace_only_events args rnd w) as (evs & (F & C & T) & G & Nv & Dr).
  exists evs. now repeat split.
Qed.

(** What the retry loop does, started with [attempt = a]. *)
Lemma attempts_effect fuel i url a w w' o :
  attempts fuel i url a w = Some (w', o) ->
  exists evs k,
    attempt_of o = (a + Z.of_nat (S k))%Z
    /\ (attempt_of o <= Z.max a retries + 1)%Z
    /\ trace w' = trace w ++ evs
    /\ gotos evs = replicate (S k) url
    /\ navs w' = (navs w + S k)%nat
    /\ draws w' = (draws w + k)%nat
    /\ match o with
       | cli_runner.GaveUp att _ =>
           (retries < att)%Z /\ files w' = files w /\ combined w' = combined w
       | cli_runner.Succeeded _ =>
           exists title text,
             files w' = <[chapter_path out i title
                          := chapter_block include title url text ++ newline]> (files w)
             /\ combined w' = combined w ++ combined_block include title url text
       end.
Proof.
  revert a w. induction fuel as [|fuel IH]; intros a w; [discriminate|].
  cbn [attempts cli_runner.attempts]. fold attempts. fold attempt_once.
  destruct (attempt_once_effect i url w) as (ev1 & T1 & G1 & N1 & D1 & O1).
  destruct (attempt_once i url w) as [w1 [e|]]; cbn [fst snd] in *.
  - destruct O1 as [F1 C1]. fold retries.
    destruct (Z.leb_spec (a + 1) retries) as [Hle|Hgt].
    + intros H. apply IH in H as (ev2 & k & A & B & T2 & G2 & N2 & D2 & O2).
      set (w2 := emit _ w1) in *.
      destruct (pace_effect w2) as (ev3 & T3 & G3 & N3 & D3 & F3 & C3).
      fold pace in T2, N2, D2, O2.
      exists (ev1 ++ [Print (MsgRetry e url (a + 1) retries)] ++ ev3 ++ ev2), (S k).
      split; [lia|]. split; [lia|].
      split; [rewrite T2, T3; cbn; rewrite T1, <- !app_assoc; reflexivity|].
      split; [rewrite !gotos_app, G1, G2, G3; reflexivity|].
      split; [rewrite N2, N3; cbn; lia|].
      split; [rewrite D2, D3; cbn; lia|].
      rewrite F3, C3 in O2. cbn in O2. rewrite F1, C1 in O2. exact O2.
    + intros [= <- <-]. exists (ev1 ++ [Print (MsgGivingUp e url)]), O.
      cbn [attempt_of]. split; [lia|]. split; [lia|].
      split; [cbn; rewrite T1, <- app_assoc; reflexivity|].
      split; [rewrite gotos_app, G1; reflexivity|].
      split; [cbn; lia|]. split; [cbn; lia|]. cbn. split; [lia | now split].
  - intros [= <- <-]. exists ev1, O. cbn [attempt_of].
    split; [lia|]. split; [lia|]. split; [exact T1|]. split; [exact G1|].
    split; [lia|]. split; [lia|]. exact O1.
Qed.

(** What one iteration of the [for] loop does. *)
Lemma chapter_effect i url w :
  exists w' o evs,
    chapter i url w = Some (w', o)
    /\ (1 <= attempt_of o <= Z.max 0 retries + 1)%Z
    /\ trace w' = trace w ++ evs
    /\ gotos evs = replicate (Z.to_nat (attempt_of o)) url
    /\ navs w' = (navs w + Z.to_nat (attempt_of o))%nat
    /\ draws w' = (draws w + Z.to_nat (attempt_of o))%nat
    /\ match o with
       | cli_runner.GaveUp att _ =>
           (retries < att)%Z /\ files w' = files w /\ combined w' = combined w
       | cli_runner.Succeeded _ =>
           exists title text,
             files w' = <[chapter_path out i title
                          := chapter_block include title url text ++ newline]> (files w)
             /\ combined w' = combined w ++ combined_block include title url text
       end.
Proof.
  unfold chapter, cli_runner.chapter. fold attempts.
  destruct (attempts_terminate uni_alnum args d rnd
              (S (Z.to_nat (cli_runner.retries args))) i url 0 w) as (w1 & o & Ha); [lia|].
  fold attempts in Ha. rewrite Ha.
  destruct (attempts_effect _ _ _ _ _ _ _ Ha) as (ev1 & k & A & B & T1 & G1 & N1 & D1 & O1).
  destruct (pace_effect w1) as (ev2 & T2 & G2 & N2 & D2 & F2 & C2).
  exists (pace w1), o, (ev1 ++ ev2). split; [reflexivity|].
  assert (Hk : Z.to_nat (attempt_of o) = S k) by lia.
  split; [lia|].
  split; [rewrite T2, T1, <- app_assoc; reflexivity|].
  split; [rewrite gotos_app, G1, G2, Hk, app_nil_r; reflexivity|].
  split; [rewrite N2, N1; lia|].
  split; [rewrite D2, D1; lia|].
  rewrite F2, C2. exact O1.
Qed.

End CliAccounting.

Section CliRun.

Variable uni_alnum : N -> bool.
Variable args : cli_runner.Args.
Variable d : driver.
Variable rnd : nat -> Q.

Let attempt_once := cli_runner.attempt_once uni_alnum args d.
Let attempts := cli_runner.attempts uni_alnum args d rnd.
Let chapter := cli_runner.chapter uni_alnum args d rnd.
Let chapters := cli_runner.chapters uni_alnum args d rnd.
Let include := cli_runner.include_links args.
Let out := cli_runner.out args.
Let retries := cli_runner.retries args.




End CliRun.

Section CliRetry.

Variable uni_alnum : N -> bool.
Variable args : cli_runner.Args.
Variable d : driver.
Variable rnd : nat -> Q.

Let attempt_once := cli_runner.attempt_once uni_alnum args d.
Let attempts := cli_runner.attempts uni_alnum args d rnd.
Let chapter := cli_runner.chapter uni_alnum args d rnd.
Let pace := cli_runner.sleep_polite rnd (cli_runner.min_d args) (cli_runner.max_d args).
Let retries := cli_runner.retries args.
Let wait := cli_runner.wait_after_load args.



Lemma attempts_succeeded fuel i url a w w' att :
  attempts fuel i url a w = Some (w', cli_runner.Succeeded att) ->
  exists n, raised wait (chapter_page d n url) = None.
Proof.
  revert a w. induction fuel as [|fuel IH]; intros a w; [discriminate|].
  cbn [attempts cli_runner.attempts]. fold attempts. fold attempt_once.
  pose proof (attempt_once_result uni_alnum args d i url w) as Hr.
  fold attempt_once in Hr. fold wait in Hr.
  destruct (attempt_once i url w) as [w1 [e|]]; cbn in Hr.
  - destruct (_ <=? _)%Z; [apply IH | discriminate].
  - intros _. now exists (navs w).
Qed.

(** X4.  A chapter on which every attempt raises is attempted
    [max(0, retries) + 1] times, whatever the retries: once when they are
    zero or negative.  The loop is then left through the give-up branch,
    with nothing written. *)
Theorem failing_chapter_attempts i url w :
  (forall n, raised wait (chapter_page d n url) <> None) ->
  exists w' e evs,
    chapter i url w = Some (w', cli_runner.GaveUp (Z.max 0 retries + 1) e)
    /\ trace w' = trace w ++ evs
    /\ gotos evs = replicate (Z.to_nat (Z.max 0 retries + 1)) url
    /\ files w' = files w /\ combined w' = combined w.
Proof.
  intros Hd.
  destruct (chapter_effect uni_alnum args d rnd i url w)
    as (w' & o & evs & Hc & Hb & T & G & _ & _ & O).
  fold chapter in Hc. fold retries in Hb, O.
  destruct o as [att|att e].
  - exfalso. unfold chapter, cli_runner.chapter in Hc. fold attempts in Hc.
    destruct (attempts _ _ _ _ _) as [[w1 o1]|] eqn:Ea; [|discriminate].
    injection Hc as _ ->.
    destruct (attempts_succeeded _ _ _ _ _ _ _ Ea) as [n Hn]. now apply (Hd n).
  - destruct O as (Hgt & F & C). cbn [attempt_of] in *.
    assert (att = Z.max 0 retries + 1)%Z as -> by lia.
    now exists w', e, evs.
Qed.

End CliRetry.


(** X4 on [first_times_out] with [--retries -3]: one attempt. *)
Lemma failing_chapter_attempts_witness :
  (forall n, raised (cli_runner.wait_after_load negative_retries_args)
               (chapter_page first_times_out n url1) <> None)
  /\ exists w' e evs,
       cli_runner.chapter ascii_only negative_retries_args first_times_out always_half
                          1 url1 blank
       = Some (w', cli_runner.GaveUp 1 e)
       /\ trace w' = trace blank ++ evs
       /\ gotos evs = [url1]
       /\ files w' = files blank /\ combined w' = combined blank.
Proof.
  assert (H : forall n, raised (cli_runner.wait_after_load negative_retries_args)
                          (chapter_page first_times_out n url1) <> None)
    by (intros n; discriminate).
  split; [exact H|].
  exact (failing_chapter_attempts ascii_only negative_retries_args first_times_out
           always_half 1 url1 blank H).
Defined.

(** ** The link list and the run of [cli_runner.main] *)




Section CliMain.

Variable uni_alnum : N -> bool.
Variable bracketed_ok : pystr -> bool.
Variable nfkc_ok : pystr -> bool.
Variable args : cli_runner.Args.
Variable d : driver.
Variable rnd : nat -> Q.

Let main := cli_runner.main uni_alnum bracketed_ok nfkc_ok args d rnd.
Let toc := cli_runner.toc args.


End CliMain.

(** ** What [clean_text] does to any text *)

Lemma sub_from_sublist r repl k s :
  (forall t n, match_here r t = Some n -> repl `sublist_of` take n t) ->
  sub_from r repl k s `sublist_of` drop k s.
Proof.
  intros H. revert k. induction s as [|c s IH]; intros k.
  - destruct k; constructor.
  - cbn [sub_from]. destruct k as [|k]; [|exact (IH k)].
    cbn [drop]. destruct (match_here r (c :: s)) as [[|n]|] eqn:E.
    + apply sublist_skip. exact (IH O).
    + rewrite <- (take_drop (S n) (c :: s)).
      apply sublist_app; [exact (H _ _ E) | exact (IH n)].
    + apply sublist_skip. exact (IH O).
Qed.

Lemma re_sub_sublist r repl s :
  (forall t n, match_here r t = Some n -> repl `sublist_of` take n t) ->
  re_sub r repl s `sublist_of` s.
Proof. intros H. exact (sub_from_sublist r repl O s H). Qed.

Lemma re_sub_delete_sublist r s : re_sub r [] s `sublist_of` s.
Proof. apply re_sub_sublist. intros. apply sublist_nil_l. Qed.

Lemma last_newline_sublist s n :
  last_newline s = Some n -> newline `sublist_of` take n s.
Proof.
  revert n. induction s as [|c s IH]; intros n; [discriminate|].
  cbn [last_newline]. destruct (isspace c); [|discriminate].
  destruct (last_newline s) as [m|] eqn:E.
  - intros [= <-]. cbn [take]. apply sublist_cons. now apply IH.
  - destruct (is_newline c) eqn:En; [|discriminate]. intros [= <-].
    apply is_newline_eq in En. subst c. cbn. apply sublist_skip, sublist_nil_l.
Qed.

Lemma strip_sublist s : strip s `sublist_of` s.
Proof.
  unfold strip. destruct (lstrip_by_suffix isspace s) as [k ->].
  etrans; [|apply sublist_drop].
  destruct (rstrip_by_prefix isspace (drop k s)) as (w & Hw & _).
  rewrite Hw at 2. apply sublist_inserts_r. reflexivity.
Qed.

Lemma normalize_whitespace_sublist s : normalize_whitespace s `sublist_of` s.
Proof.
  unfold normalize_whitespace.
  etrans; [apply strip_sublist|].
  etrans.
  { apply re_sub_sublist. intros t n.
    rewrite match_here_rep_last. destruct (_ <? _)%nat eqn:E; [discriminate|].
    intros [= <-]. apply Nat.ltb_ge in E.
    destruct t as [|a [|b t]]; cbn [span] in E |- *; [lia | destruct (is_newline a); lia |].
    destruct (is_newline a) eqn:Ea; [|lia].
    destruct (is_newline b) eqn:Eb; [|lia].
    apply is_newline_eq in Ea, Eb. subst a b.
    cbn [take newline app]. do 2 apply sublist_skip. apply sublist_nil_l. }
  etrans.
  { apply re_sub_sublist. intros [|c t] n; [discriminate|].
    rewrite match_newline_space. destruct (is_newline c) eqn:Ec; [|discriminate].
    destruct (negb _); [|discriminate]. intros [= <-].
    apply is_newline_eq in Ec. subst c. cbn. apply sublist_skip, sublist_nil_l. }
  apply re_sub_sublist. intros [|c t] n; [discriminate|].
  rewrite match_space_newline. destruct (isspace c); [|discriminate].
  destruct (last_newline t) as [m|] eqn:E; [|discriminate]. intros [= <-].
  cbn [take]. apply sublist_cons. now apply last_newline_sublist.
Qed.

Lemma clean_text_sublist (u : N -> bool) (text : pystr) (r s : bool) :
  clean_text u text r s `sublist_of` text.
Proof.
  rewrite clean_text_normalizes. etrans; [apply normalize_whitespace_sublist|].
  cbv zeta. assert (H : (if s then re_sub pat_sponsored [] (re_sub (pat_ads_by u) [] text)
                         else text) `sublist_of` text).
  { destruct s; [|reflexivity].
    etrans; apply re_sub_delete_sublist. }
  destruct r; [|exact H]. etrans; [apply re_sub_delete_sublist | exact H].
Qed.

(** X7.  [clean_text] only deletes: whatever the flags, its result is the
    input with some characters left out; no character is added, changed or
    moved, and the result is never longer than the input. *)
Theorem clean_text_only_deletes (u : N -> bool) (text : pystr) (r s : bool) :
  clean_text u text r s `sublist_of` text
  /\ (List.length (clean_text u text r s) <= List.length text)%nat.
Proof.
  split; [apply clean_text_sublist | apply sublist_length, clean_text_sublist].
Qed.

Lemma no_pair_weaken (P Q : N -> N -> bool) s :
  (forall a b, P a b = true -> Q a b = true) ->
  no_pair Q s = true -> no_pair P s = true.
Proof.
  intros H. induction s as [|a s IH]; [reflexivity|]. cbn [no_pair].
  intros [H1 H2]%andb_true_iff. apply andb_true_iff. split; [|now apply IH].
  destruct (head s) as [b|]; [|reflexivity].
  destruct (P a b) eqn:E; [|reflexivity]. apply H in E. now rewrite E in H1.
Qed.

Lemma clean_text_tidy u text r s : tidy (clean_text u text r s).
Proof. rewrite clean_text_normalizes. apply normalize_whitespace_tidy. Qed.

(** X8.  The text that [clean_text] returns has no whitespace at either
    end and none next to a newline.  So it never has two newlines in a row:
    every blank line of the input is gone, paragraph breaks included.  The
    third substitution, of two newlines for three or more, never finds a
    match in the text that the first two leave. *)
Theorem clean_text_leaves_no_blank_line (u : N -> bool) (text : pystr) (r s : bool) :
  let out := clean_text u text r s in
  tidy out
  /\ no_pair (fun a b => is_newline a && is_newline b) out = true
  /\ forall t,
       let t2 := re_sub [One is_newline; Rep 1 isspace] newline
                   (re_sub [Rep 1 isspace; One is_newline] newline t) in
       re_sub [Rep 3 is_newline] (newline ++ newline) t2 = t2.
Proof.
  cbv zeta. split; [apply clean_text_tidy|]. split.
  - destruct (clean_text_tidy u text r s) as (_ & H & _).
    revert H. apply no_pair_weaken. intros a b [Ha Hb]%andb_true_iff.
    unfold newline_then_space. now rewrite Ha, (isspace_newline _ Hb).
  - intros t. apply re_sub_nowhere, tidy_no_newlines.
    apply sub_newline_space_tidy, sub_space_newline_tidy.
Qed.




Section BlankContent.

Variable uni_alnum : N -> bool.
Variable args : cli_runner.Args.
Variable form : toc_playwright.Form.
Variable DEFAULT_OUTPUT_DIR : pystr.
Variable d : driver.
Variable rnd : nat -> Q.



End BlankContent.


(** ** The loop of [toc_playwright.py] *)

Section GuiRun.

Variable uni_alnum : N -> bool.
Variable DEFAULT_OUTPUT_DIR : pystr.
Variable form : toc_playwright.Form.
Variable d : driver.
Variable rnd : nat -> Q.

Let visit := toc_playwright.visit uni_alnum DEFAULT_OUTPUT_DIR form d rnd.
Let include := toc_playwright.include_links form.
Let out := toc_playwright.out_dir DEFAULT_OUTPUT_DIR form.



Variable is_running : N -> bool.

Let chapters := toc_playwright.chapters uni_alnum DEFAULT_OUTPUT_DIR form d rnd is_running.



End GuiRun.


(** ** The whitespace of a file name *)

Lemma match_spaces c s :
  match_here [Rep 1 isspace] (c :: s) =
  if isspace c then Some (S (span isspace s)) else None.
Proof.
  rewrite match_here_rep_last. cbn [span]. now destruct (isspace c).
Qed.

Lemma head_drop_span_false p (s : pystr) x :
  head (drop (span p s) s) = Some x -> p x = false.
Proof.
  induction s as [|c s IH]; [discriminate|]. cbn [span].
  destruct (p c) eqn:E; [exact IH|]. cbn. now intros [= <-].
Qed.

Lemma sub_spaces_shape s :
  let t := re_sub [Rep 1 isspace] (py " ") s in
  Forall (fun c => isspace c = true -> c = 32) t
  /\ no_pair (fun a b => isspace a && isspace b) t = true
  /\ forall x, head s = Some x -> isspace x = false -> head t = Some x.
Proof.
  cbv zeta. induction s as [s IH] using pystr_len_ind.
  destruct s as [|c s]; [now repeat split|].
  destruct (isspace c) eqn:Ec.
  - assert (Em : match_here [Rep 1 isspace] (c :: s) = Some (S (span isspace s)))
      by now rewrite match_spaces, Ec.
    rewrite (re_sub_step_match _ _ _ _ _ Em).
    destruct (IH (drop (span isspace s) s)) as (F & P & H);
      [rewrite length_drop; cbn; lia|].
    split; [constructor; [reflexivity | exact F]|]. split.
    + change (py " " ++ ?t) with (32 :: t). cbn [no_pair].
      rewrite P, andb_true_r.
      destruct (drop (span isspace s) s) as [|y t] eqn:Ed; [reflexivity|].
      assert (Hy : isspace y = false)
        by (apply (head_drop_span_false isspace s); now rewrite Ed).
      now rewrite (H y eq_refl Hy), Hy.
    + intros x [= <-]. congruence.
  - assert (Em : match_here [Rep 1 isspace] (c :: s) = None)
      by now rewrite match_spaces, Ec.
    rewrite (re_sub_step_copy _ _ _ _ Em).
    destruct (IH s) as (F & P & H); [cbn; lia|].
    split; [constructor; [congruence | exact F]|]. split.
    + cbn [no_pair]. rewrite P, andb_true_r, Ec.
      now destruct (head (re_sub _ _ s)).
    + now intros x [= <-] _.
Qed.

Lemma strip_head s x : head (strip s) = Some x -> isspace x = false.
Proof.
  unfold strip. intros H.
  destruct (lstrip_by isspace s) as [|c t] eqn:E; [discriminate|].
  assert (Hc : isspace c = false) by (apply (lstrip_by_head isspace s); now rewrite E).
  rewrite (rstrip_by_head isspace (c :: t) c eq_refl Hc) in H. congruence.
Qed.

Lemma single_spaced_take n s : single_spaced s -> single_spaced (take n s).
Proof.
  intros (F & P & H). repeat split.
  - now apply Forall_take.
  - apply (no_pair_app_l _ _ (drop n s)). now rewrite take_drop.
  - intros x Hx. apply H. destruct n, s; cbn in *; congruence.
Qed.

Lemma sub_spaces_single s :
  (forall x, head s = Some x -> isspace x = false) ->
  single_spaced (re_sub [Rep 1 isspace] (py " ") s).
Proof.
  intros Hs. destruct (sub_spaces_shape s) as (F & P & H).
  split; [exact F|]. split; [exact P|].
  intros x Hx. destruct s as [|c s]; [discriminate|].
  specialize (Hs c eq_refl). rewrite (H c eq_refl Hs) in Hx. congruence.
Qed.

Lemma reserved_not_space c : is_reserved c = true -> isspace c = false.
Proof.
  unfold is_reserved, one_of. cbn [existsb]. rewrite orb_false_r.
  rewrite !orb_true_iff, !N.eqb_eq. intuition (subst; reflexivity).
Qed.

(** X13.  In the name that either [safe_filename] returns every whitespace
    character is a plain space, no two of them are neighbours, and the name
    does not start with one: tabs, line breaks and runs of blanks of the
    title never get into a file name. *)
Theorem safe_filename_single_spaced (name : pystr) :
  single_spaced (cli_runner.safe_filename name)
  /\ single_spaced (toc_playwright.safe_filename name).
Proof.
  assert (U : single_spaced (py "untitled")).
  { repeat split; [repeat constructor; discriminate|].
    intros x [= <-]. reflexivity. }
  split.
  - unfold cli_runner.safe_filename. apply single_spaced_take.
    destruct (nonempty _); [|exact U]. apply sub_spaces_single.
    rewrite sub_runs_spec.
    destruct (strip _) as [|c t] eqn:E; [discriminate|].
    assert (Hc : isspace c = false) by (apply (strip_head (re_sub [One is_tnr] (py " ") name));
                                       now rewrite E).
    cbn [runs_to_underscore]. destruct (is_reserved c); cbn; now intros x [= <-].
  - unfold toc_playwright.safe_filename.
    destruct (nonempty _); [|exact U]. apply single_spaced_take, sub_spaces_single.
    rewrite sub_each_spec.
    destruct (strip _) as [|c t] eqn:E; [discriminate|].
    assert (Hc : isspace c = false) by (apply (strip_head (re_sub [One is_tnr] (py " ") name));
                                       now rewrite E).
    cbn [each_to_underscore List.map]. destruct (is_reserved c); cbn; now intros x [= <-].
Qed.

(** ** The files of the chapters *)

Lemma py_String a s : py (String a s) = N_of_ascii a :: py s.
Proof. reflexivity. Qed.

Ltac code_point :=
  match goal with
  | |- context [N_of_ascii ?a] =>
      let v := eval vm_compute in (N_of_ascii a) in change (N_of_ascii a) with v
  end.

Lemma decimal_value_acc d acc :
  fold_left (fun acc c => 10 * acc + (c - 48)) (py (NilEmpty.string_of_uint d)) (N.pos acc)
  = N.pos (Pos.of_uint_acc d acc).
Proof.
  revert acc. induction d as [|d IH|d IH|d IH|d IH|d IH|d IH|d IH|d IH|d IH|d IH];
    intros acc; cbn [NilEmpty.string_of_uint Pos.of_uint_acc]; [reflexivity|..];
    rewrite py_String; cbn [fold_left]; rewrite <- IH; f_equal; code_point; lia.
Qed.

Lemma decimal_value_uint d :
  decimal_value (py (NilEmpty.string_of_uint d)) = N.of_uint d.
Proof.
  unfold decimal_value, N.of_uint.
  induction d as [|d IH|d IH|d IH|d IH|d IH|d IH|d IH|d IH|d IH|d IH];
    cbn [NilEmpty.string_of_uint Pos.of_uint]; [reflexivity|exact IH|..];
    rewrite py_String; cbn [fold_left]; rewrite <- decimal_value_acc; f_equal.
Qed.

Lemma decimal_value_str n : decimal_value (str_of_N n) = n.
Proof.
  unfold str_of_N. rewrite <- (DecimalN.Unsigned.of_to n) at 2.
  destruct (N.to_uint n); try apply decimal_value_uint. reflexivity.
Qed.

Lemma decimal_value_zeros k s : decimal_value (replicate k 48 ++ s) = decimal_value s.
Proof. unfold decimal_value. induction k as [|k IH]; [reflexivity|]. exact IH. Qed.

Lemma decimal_value_fmt n : decimal_value (fmt_03d n) = n.
Proof. unfold fmt_03d. cbv zeta. now rewrite decimal_value_zeros, decimal_value_str. Qed.

Lemma digits_uint d : Forall (fun c => is_digit c = true) (py (NilEmpty.string_of_uint d)).
Proof.
  induction d; cbn [NilEmpty.string_of_uint]; [constructor|..];
    rewrite py_String; constructor; auto.
Qed.

Lemma digits_str n : Forall (fun c => is_digit c = true) (str_of_N n).
Proof.
  unfold str_of_N. destruct (N.to_uint n); try apply digits_uint. repeat constructor.
Qed.

Lemma digits_fmt n : Forall (fun c => is_digit c = true) (fmt_03d n).
Proof.
  unfold fmt_03d. cbv zeta. apply Forall_app. split; [|apply digits_str].
  apply Forall_replicate. reflexivity.
Qed.

Lemma fmt_length n : (3 <= List.length (fmt_03d n))%nat.
Proof. unfold fmt_03d. cbv zeta. rewrite length_app, length_replicate. lia. Qed.

Lemma take_span_digits (a : pystr) c r :
  Forall (fun c => is_digit c = true) a -> is_digit c = false ->
  take (span is_digit (a ++ c :: r)) (a ++ c :: r) = a.
Proof.
  intros Ha Hc. induction Ha as [|x a Hx _ IH]; cbn [app span].
  - now rewrite Hc.
  - rewrite Hx. cbn [take]. now f_equal.
Qed.

Lemma chapter_file_inj i j t1 t2 :
  chapter_file i t1 = chapter_file j t2 -> i = j /\ t1 = t2.
Proof.
  unfold chapter_file. change (py " - " ++ ?x) with (32 :: 45 :: 32 :: x).
  intros H.
  assert (Hf : fmt_03d i = fmt_03d j).
  { rewrite <- (take_span_digits (fmt_03d i) 32 (45 :: 32 :: t1 ++ py ".txt"))
      by (apply digits_fmt || reflexivity).
    rewrite H. apply take_span_digits; [apply digits_fmt | reflexivity]. }
  split.
  - now rewrite <- (decimal_value_fmt i), Hf, decimal_value_fmt.
  - rewrite Hf in H. apply app_inv_head in H. injection H as H.
    now apply app_inv_tail in H.
Qed.

Lemma chapter_path_split out i title :
  chapter_path out i title = folder_prefix out ++ chapter_file i title.
Proof.
  unfold chapter_path, path_join, folder_prefix. fold (chapter_file i title).
  assert (Hs : startswith [47] (chapter_file i title) = false).
  { unfold chapter_file. pose proof (digits_fmt i) as Hd. pose proof (fmt_length i) as Hl.
    destruct (fmt_03d i) as [|c t]; [cbn in Hl; lia|].
    apply Forall_cons in Hd as [Hc _]. cbn [app startswith]. rewrite andb_true_r.
    apply N.eqb_neq. intros <-. discriminate. }
  rewrite Hs. destruct (_ || _); [reflexivity|]. now rewrite <- app_assoc.
Qed.

(** X14.  The path of a chapter file tells the chapter: two chapters get
    the same path only if they have the same number, and then the same
    title.  So within a run, where the links are numbered from 1, no
    chapter is written over the file of another, whatever the titles of the
    pages. *)
Theorem chapter_path_tells_the_chapter (out : pystr) (i j : N) (t1 t2 : pystr) :
  chapter_path out i t1 = chapter_path out j t2 <-> i = j /\ t1 = t2.
Proof.
  split; [|now intros [-> ->]].
  rewrite !chapter_path_split. intros H%app_inv_head. now apply chapter_file_inj.
Qed.

Lemma chapter_file_no_slash i title :
  no_reserved title -> Forall (fun c => c <> 47) (chapter_file i title).
Proof.
  intros Ht. unfold chapter_file. rewrite !Forall_app. repeat split.
  - eapply Forall_impl; [apply digits_fmt|]. intros c Hc ->. discriminate.
  - repeat constructor; discriminate.
  - eapply Forall_impl; [exact Ht|]. intros c Hc ->. discriminate.
  - repeat constructor; discriminate.
Qed.

(** X15.  Whatever the title of a page, the file of its chapter lies
    directly in the output folder: its path is the folder, a slash where
    [os.path.join] adds one, and a file name without any slash, made of the
    number of the chapter in at least three digits, the sanitised title and
    the extension.  A title cannot move the file to another folder. *)
Theorem chapter_file_stays_in_folder (out : pystr) (i : N) (name : pystr) :
  (let title := cli_runner.safe_filename name in
   chapter_path out i title = folder_prefix out ++ chapter_file i title
   /\ Forall (fun c => c <> 47) (chapter_file i title))
  /\ (let title := toc_playwright.safe_filename name in
      chapter_path out i title = folder_prefix out ++ chapter_file i title
      /\ Forall (fun c => c <> 47) (chapter_file i title)).
Proof.
  split; cbv zeta; (split; [apply chapter_path_split | apply chapter_file_no_slash]).
  - unfold cli_runner.safe_filename. apply Forall_take.
    destruct (nonempty _); [|apply untitled_no_reserved].
    apply sub_spaces_no_reserved, sub_runs_no_reserved.
  - unfold toc_playwright.safe_filename.
    destruct (nonempty _); [|apply untitled_no_reserved].
    apply Forall_take, sub_spaces_no_reserved, sub_each_no_reserved.
Qed.

(** ** The pauses of [cli_runner.py] *)



Section CliPauses.

Variable uni_alnum : N -> bool.
Variable args : cli_runner.Args.
Variable d : driver.
Variable rnd : nat -> Q.

Hypothesis rnd_unit : forall n, (0 <= rnd n < 1)%Q.

Let attempt_once := cli_runner.attempt_once uni_alnum args d.
Let attempts := cli_runner.attempts uni_alnum args d rnd.
Let chapter := cli_runner.chapter uni_alnum args d rnd.
Let chapters := cli_runner.chapters uni_alnum args d rnd.
Let min_d := cli_runner.min_d args.
Let max_d := cli_runner.max_d args.
Let pace := cli_runner.sleep_polite rnd min_d max_d.







End CliPauses.

